(** * Inspiro: the gallery's active-item state machine

    A shallow embedding of the two [App] variants of the repository
    (the mock-data one of [src/minimized.tsx] and the remote-API one of
    [src/types.ts]), of the [MinimizedPlayer] component and of the search
    filter, with the properties of the specification stated over them.

    Conventions.
    - A JavaScript [number] that is an array position is a [Z]; times
      (whole seconds) are [Z] too, and [NaN] or [Infinity] is [None];
      the click on the progress bar computes with rationals.
    - A JavaScript string is a [string], the bytes of its text, one byte
      for each ASCII character. The [toLowerCase] of the host is a
      parameter of the search filter; [JS.toLowerCase] is what it does
      on text of ASCII characters ([A]-[Z] to [a]-[z]), and the state
      machine is stated with it.
    - [T | null | undefined] is [option T].
    - A handler that can raise a [TypeError] returns an [outcome]. *)

From Stdlib Require Import ZArith Ascii String Bool Lia.
From Stdlib Require DecimalString DecimalZ QArith Qminmax Lqa.
From stdpp Require Import base option list.

Local Open Scope Z_scope.

(** ** JavaScript helpers *)

Module JS.

(** [arr[i]]: [undefined] outside of [0 .. length-1]. *)
Definition at_index {A} (arr : list A) (i : Z) : option A :=
  if i <? 0 then None else arr !! Z.to_nat i.

(** [arr.length]. *)
Definition len {A} (arr : list A) : Z := Z.of_nat (length arr).

(** [arr.findIndex(f)]: the first position whose element satisfies [f],
    [-1] when there is none. *)
Fixpoint findIndex_from {A} (f : A → bool) (arr : list A) (i : Z) : Z :=
  match arr with
  | [] => -1
  | x :: rest => if f x then i else findIndex_from f rest (i + 1)
  end.

Definition findIndex {A} (f : A → bool) (arr : list A) : Z :=
  findIndex_from f arr 0.

Definition lower_ascii (c : ascii) : ascii :=
  let n := nat_of_ascii c in
  if (Nat.leb 65 n && Nat.leb n 90)%bool then ascii_of_nat (n + 32) else c.

(** [s.toLowerCase()] on text of ASCII characters, where the host
    function turns the letters A to Z into a to z and changes nothing
    else. On other text the host function follows Unicode and does
    more; the filter is therefore also given with the host function as
    a parameter, [Host.filteredPosts] below, and what is stated of the
    filter on every text is stated there. *)
Fixpoint toLowerCase (s : string) : string :=
  match s with
  | EmptyString => EmptyString
  | String c rest => String (lower_ascii c) (toLowerCase rest)
  end.

(** [s.startsWith(t)], the test [includes] makes at each position. *)
Fixpoint startsWith (s t : string) {struct t} : bool :=
  match t, s with
  | EmptyString, _ => true
  | String _ _, EmptyString => false
  | String b t', String a s' => Ascii.eqb a b && startsWith s' t'
  end.

(** [s.includes(t)]: [t] occurs in [s] at some position. *)
Fixpoint includes (s t : string) : bool :=
  startsWith s t ||
  match s with
  | EmptyString => false
  | String _ rest => includes rest t
  end.

(** Truthiness of a string: the empty string is falsy. *)
Definition truthy (s : string) : bool :=
  match s with EmptyString => false | String _ _ => true end.

End JS.

(** ** [src/types.ts]: posts *)

Inductive PostType := Image | Video | Audio | Note | Quote.

Record Post := {
  _id : string;
  createdAt : string;
  title : string;
  type : PostType;
  description : option string;
  fileUrl : option string;
  coverUrl : option string;
  noteText : option string;
  quoteText : option string;
  source : option string;
  tags : option (list string);
  initialTime : option Z
}.

(** [[PostType.Audio, PostType.Video].includes(type)] *)
Definition isMediaPost (t : PostType) : bool :=
  match t with
  | Audio | Video => true
  | _ => false
  end.

(** ** The search filter, identical in both [App] variants *)

Module Host.
Section WithToLowerCase.
(** [String.prototype.toLowerCase] of the host. *)
Variable toLowerCase : string → string.

(** [field && field.toLowerCase().includes(q)]: a field that is absent or
    empty is falsy and contributes nothing. *)
Definition fieldIncludes (field : option string) (lowercasedQuery : string) : bool :=
  match field with
  | Some text => JS.truthy text && JS.includes (toLowerCase text) lowercasedQuery
  | None => false
  end.

Definition postMatches (lowercasedQuery : string) (post : Post) : bool :=
  JS.includes (toLowerCase (title post)) lowercasedQuery
  || fieldIncludes (description post) lowercasedQuery
  || fieldIncludes (noteText post) lowercasedQuery
  || fieldIncludes (quoteText post) lowercasedQuery.

Definition filteredPosts (posts : list Post) (searchQuery : string) : list Post :=
  if negb (JS.truthy searchQuery) then posts
  else
    let lowercasedQuery := toLowerCase searchQuery in
    List.filter (postMatches lowercasedQuery) posts.

End WithToLowerCase.
End Host.

(** The filter on text of ASCII characters, as the state machine below
    uses it. *)
Definition fieldIncludes (field : option string) (lowercasedQuery : string) : bool :=
  Host.fieldIncludes JS.toLowerCase field lowercasedQuery.

Definition postMatches (lowercasedQuery : string) (post : Post) : bool :=
  Host.postMatches JS.toLowerCase lowercasedQuery post.

Definition filteredPosts (posts : list Post) (searchQuery : string) : list Post :=
  Host.filteredPosts JS.toLowerCase posts searchQuery.

(** ** The state of [App] *)

Inductive Mode := modal | minimized.

Definition mode_eqb (a b : Mode) : bool :=
  match a, b with
  | modal, modal | minimized, minimized => true
  | _, _ => false
  end.

(** [ActiveMediaState] without its [null]. *)
Module ActiveMediaState.
Record t := {
  post : Post;
  index : Z;
  mode : Mode;
  currentTime : option Z
}.

(** [{ ...prev, mode: m }] *)
Definition with_mode (prev : t) (m : Mode) : t :=
  {| post := post prev; index := index prev; mode := m;
     currentTime := currentTime prev |}.
End ActiveMediaState.

(** [ActiveModalState] without its [null]. *)
Module ActiveModalState.
Record t := {
  post : Post;
  index : Z
}.
End ActiveModalState.

Record AppState := {
  posts : list Post;
  searchQuery : string;
  activeMedia : option ActiveMediaState.t;
  activeModal : option ActiveModalState.t;
  isLoading : bool;
  error : option string
}.

Definition setPosts (v : list Post) (s : AppState) : AppState :=
  {| posts := v; searchQuery := searchQuery s; activeMedia := activeMedia s;
     activeModal := activeModal s; isLoading := isLoading s; error := error s |}.

Definition setSearchQuery (v : string) (s : AppState) : AppState :=
  {| posts := posts s; searchQuery := v; activeMedia := activeMedia s;
     activeModal := activeModal s; isLoading := isLoading s; error := error s |}.

Definition setActiveMedia (v : option ActiveMediaState.t) (s : AppState) : AppState :=
  {| posts := posts s; searchQuery := searchQuery s; activeMedia := v;
     activeModal := activeModal s; isLoading := isLoading s; error := error s |}.

Definition setActiveModal (v : option ActiveModalState.t) (s : AppState) : AppState :=
  {| posts := posts s; searchQuery := searchQuery s; activeMedia := activeMedia s;
     activeModal := v; isLoading := isLoading s; error := error s |}.

Definition setIsLoading (v : bool) (s : AppState) : AppState :=
  {| posts := posts s; searchQuery := searchQuery s; activeMedia := activeMedia s;
     activeModal := activeModal s; isLoading := v; error := error s |}.

(** The state of the first render. *)
Definition initialState : AppState :=
  {| posts := []; searchQuery := EmptyString; activeMedia := None;
     activeModal := None; isLoading := true; error := None |}.

(** The memoised [filteredPosts] of a render. *)
Definition filtered (s : AppState) : list Post :=
  filteredPosts (posts s) (searchQuery s).

(** A handler either returns, leaving the next state, or raises the
    [TypeError] of reading a property of [undefined]; no handler of [App]
    writes state before a point where it can raise. *)
Inductive outcome :=
| Returned (s : AppState)
| Thrown.

(** The state after the event is dispatched. *)
Definition settle (before : AppState) (o : outcome) : AppState :=
  match o with
  | Returned s => s
  | Thrown => before
  end.

(** [x || 0] on a number that may be [undefined]. *)
Definition or_zero (x : option Z) : Z :=
  match x with
  | Some t => if t =? 0 then 0 else t
  | None => 0
  end.

(** [setActiveMedia(prev => prev ? { ...prev, mode } : null)] *)
Definition switchMode (m : Mode) (s : AppState) : AppState :=
  setActiveMedia
    (match activeMedia s with
     | Some prev => Some (ActiveMediaState.with_mode prev m)
     | None => None
     end) s.

(** The user intents of the gallery. *)
Inductive Event :=
| CardClick (post : Post)
| NextItem
| PrevItem
| CloseMedia
| MinimizeMedia
| RestoreMedia
| CloseModal
| SearchChange (query : string)
| PostsLoaded (loaded : list Post).

(** ** [src/minimized.tsx]: the mock-data [App] *)

Module MockApp.
Import ActiveMediaState.

Definition handleCardClick (post : Post) (s : AppState) : AppState :=
  let index :=
    JS.findIndex (λ p, String.eqb (_id p) (_id post)) (filtered s) in
  if index =? -1 then s
  else if isMediaPost (type post) then
    let opened :=
      {| ActiveMediaState.post := post; ActiveMediaState.index := index;
         mode := modal; currentTime := Some (or_zero (initialTime post)) |} in
    let s1 :=
      match activeMedia s with
      | Some prev =>
          if String.eqb (_id (ActiveMediaState.post prev)) (_id post)
             && mode_eqb (mode prev) minimized
          then setActiveMedia (Some (with_mode prev modal)) s
          else setActiveMedia (Some opened) s
      | None => setActiveMedia (Some opened) s
      end in
    setActiveModal None s1
  else
    setActiveModal
      (Some {| ActiveModalState.post := post; ActiveModalState.index := index |}) s.

Definition handleCloseMedia (s : AppState) : AppState := setActiveMedia None s.
Definition handleMinimizeMedia (s : AppState) : AppState := switchMode minimized s.
Definition handleRestoreMedia (s : AppState) : AppState := switchMode modal s.
Definition handleCloseModal (s : AppState) : AppState := setActiveModal None s.

(** [activeMedia?.index ?? activeModal?.index] *)
Definition currentIndex (s : AppState) : option Z :=
  match activeMedia s with
  | Some m => Some (ActiveMediaState.index m)
  | None =>
      match activeModal s with
      | Some d => Some (ActiveModalState.index d)
      | None => None
      end
  end.

(** The common tail of [handleNext] and [handlePrev]: read the post at
    [newIndex] and show it. *)
Definition showAt (newIndex : Z) (s : AppState) : outcome :=
  match JS.at_index (filtered s) newIndex with
  | None => Thrown
  | Some newPost =>
      if isMediaPost (type newPost) then
        Returned
          (setActiveModal None
             (setActiveMedia
                (Some {| ActiveMediaState.post := newPost;
                         ActiveMediaState.index := newIndex;
                         mode := modal; currentTime := Some 0 |}) s))
      else
        Returned
          (setActiveModal
             (Some {| ActiveModalState.post := newPost;
                      ActiveModalState.index := newIndex |}) s)
  end.

Definition handleNext (s : AppState) : outcome :=
  match currentIndex s with
  | None => Returned s
  | Some currentIndex =>
      if currentIndex >=? JS.len (filtered s) - 1 then Returned s
      else showAt (currentIndex + 1) s
  end.

Definition handlePrev (s : AppState) : outcome :=
  match currentIndex s with
  | None => Returned s
  | Some currentIndex =>
      if currentIndex <=? 0 then Returned s
      else showAt (currentIndex - 1) s
  end.

Definition step (e : Event) (s : AppState) : AppState :=
  match e with
  | CardClick post => handleCardClick post s
  | NextItem => settle s (handleNext s)
  | PrevItem => settle s (handlePrev s)
  | CloseMedia => handleCloseMedia s
  | MinimizeMedia => handleMinimizeMedia s
  | RestoreMedia => handleRestoreMedia s
  | CloseModal => handleCloseModal s
  | SearchChange query => setSearchQuery query s
  | PostsLoaded loaded => setIsLoading false (setPosts loaded s)
  end.

(** The states some sequence of events leads to. *)
Inductive reachable : AppState → Prop :=
| reachable_initial : reachable initialState
| reachable_step e s : reachable s → reachable (step e s).

End MockApp.

(** ** [src/types.ts]: the remote-API [App] *)

Module ApiApp.
Import ActiveMediaState.

(** [if (activeMedia?.mode === 'modal')
      setActiveMedia(prev => ({ ...prev!, mode: 'minimized' }))];
    the [activeMedia] of the render and the [prev] of the update are
    the same value: no write to it comes before. *)
Definition minimizeIfModal (s : AppState) : AppState :=
  match activeMedia s with
  | Some prev =>
      if mode_eqb (mode prev) modal
      then setActiveMedia (Some (with_mode prev minimized)) s
      else s
  | None => s
  end.

Definition handleCardClick (post : Post) (s : AppState) : AppState :=
  let index :=
    JS.findIndex (λ p, String.eqb (_id p) (_id post)) (filtered s) in
  if index =? -1 then s
  else if isMediaPost (type post) then
    let opened :=
      {| ActiveMediaState.post := post; ActiveMediaState.index := index;
         mode := modal; currentTime := Some (or_zero (initialTime post)) |} in
    let s1 :=
      match activeMedia s with
      | Some prev =>
          if String.eqb (_id (ActiveMediaState.post prev)) (_id post)
             && mode_eqb (mode prev) minimized
          then setActiveMedia (Some (with_mode prev modal)) s
          else setActiveMedia (Some opened) s
      | None => setActiveMedia (Some opened) s
      end in
    setActiveModal None s1
  else
    minimizeIfModal
      (setActiveModal
         (Some {| ActiveModalState.post := post; ActiveModalState.index := index |}) s).

Inductive Direction := next | prev.

(** The [index] of
    [activeMedia?.mode === 'modal' ? activeMedia : activeModal],
    the only field [handleNavigate] reads of it. *)
Definition currentItem (s : AppState) : option Z :=
  match activeMedia s with
  | Some m =>
      if mode_eqb (mode m) modal then Some (ActiveMediaState.index m)
      else ActiveModalState.index <$> activeModal s
  | None => ActiveModalState.index <$> activeModal s
  end.

Definition handleNavigate (direction : Direction) (s : AppState) : outcome :=
  match currentItem s with
  | None => Returned s
  | Some currentIndex =>
      let newIndex :=
        match direction with
        | next => currentIndex + 1
        | prev => currentIndex - 1
        end in
      if (newIndex <? 0) || (newIndex >=? JS.len (filtered s)) then Returned s
      else
        match JS.at_index (filtered s) newIndex with
        | None => Thrown
        | Some newPost =>
            if isMediaPost (type newPost) then
              Returned
                (setActiveModal None
                   (setActiveMedia
                      (Some {| ActiveMediaState.post := newPost;
                               ActiveMediaState.index := newIndex;
                               mode := modal; currentTime := Some 0 |}) s))
            else
              Returned
                (minimizeIfModal
                   (setActiveModal
                      (Some {| ActiveModalState.post := newPost;
                               ActiveModalState.index := newIndex |}) s))
        end
  end.

Definition handleNext (s : AppState) : outcome := handleNavigate next s.
Definition handlePrev (s : AppState) : outcome := handleNavigate prev s.

(** The inline callbacks handed to the player and to the modal. *)
Definition onClose (s : AppState) : AppState := setActiveMedia None s.
Definition onMinimize (s : AppState) : AppState := switchMode minimized s.
Definition onRestore (s : AppState) : AppState := switchMode modal s.
Definition onCloseModal (s : AppState) : AppState := setActiveModal None s.

Definition step (e : Event) (s : AppState) : AppState :=
  match e with
  | CardClick post => handleCardClick post s
  | NextItem => settle s (handleNext s)
  | PrevItem => settle s (handlePrev s)
  | CloseMedia => onClose s
  | MinimizeMedia => onMinimize s
  | RestoreMedia => onRestore s
  | CloseModal => onCloseModal s
  | SearchChange query => setSearchQuery query s
  | PostsLoaded loaded => setIsLoading false (setPosts loaded s)
  end.

Inductive reachable : AppState → Prop :=
| reachable_initial : reachable initialState
| reachable_step e s : reachable s → reachable (step e s).

End ApiApp.

(** ** The state writes of the handlers, one by one *)

(** A handler makes its state writes one after the other, and React
    applies them in that order: [setPosts(v)], [setSearchQuery(v)],
    [setActiveMedia(v)], [setActiveMedia(prev => ({ ...prev, mode }))],
    [setActiveModal(v)], [setIsLoading(v)]. A handler writes the mode
    with [prev!] only where it has seen an active media, and no write to
    it comes before; elsewhere the update checks [prev] itself. *)
Inductive Write :=
| SetPosts (v : list Post)
| SetSearchQuery (v : string)
| SetActiveMedia (v : option ActiveMediaState.t)
| SetMode (m : Mode)
| SetActiveModal (v : option ActiveModalState.t)
| SetIsLoading (v : bool).

Definition write (w : Write) (s : AppState) : AppState :=
  match w with
  | SetPosts v => setPosts v s
  | SetSearchQuery v => setSearchQuery v s
  | SetActiveMedia v => setActiveMedia v s
  | SetMode m => switchMode m s
  | SetActiveModal v => setActiveModal v s
  | SetIsLoading v => setIsLoading v s
  end.

Definition writeAll (ws : list Write) (s : AppState) : AppState :=
  fold_left (λ s w, write w s) ws s.

(** The writes of each handler of [src/minimized.tsx], computed from the
    state of the render; a handler that raises has written nothing. *)
Module MockWrites.
Import ActiveMediaState.

Definition handleCardClick (post : Post) (s : AppState) : list Write :=
  let index :=
    JS.findIndex (λ p, String.eqb (_id p) (_id post)) (filtered s) in
  if index =? -1 then []
  else if isMediaPost (type post) then
    let opened :=
      {| ActiveMediaState.post := post; ActiveMediaState.index := index;
         mode := modal; currentTime := Some (or_zero (initialTime post)) |} in
    [ match activeMedia s with
      | Some prev =>
          if String.eqb (_id (ActiveMediaState.post prev)) (_id post)
             && mode_eqb (mode prev) minimized
          then SetMode modal
          else SetActiveMedia (Some opened)
      | None => SetActiveMedia (Some opened)
      end;
      SetActiveModal None ]
  else
    [ SetActiveModal
        (Some {| ActiveModalState.post := post; ActiveModalState.index := index |}) ].

Definition showAt (newIndex : Z) (s : AppState) : list Write :=
  match JS.at_index (filtered s) newIndex with
  | None => []
  | Some newPost =>
      if isMediaPost (type newPost) then
        [ SetActiveMedia
            (Some {| ActiveMediaState.post := newPost;
                     ActiveMediaState.index := newIndex;
                     mode := modal; currentTime := Some 0 |});
          SetActiveModal None ]
      else
        [ SetActiveModal
            (Some {| ActiveModalState.post := newPost;
                     ActiveModalState.index := newIndex |}) ]
  end.

Definition handleNext (s : AppState) : list Write :=
  match MockApp.currentIndex s with
  | None => []
  | Some currentIndex =>
      if currentIndex >=? JS.len (filtered s) - 1 then []
      else showAt (currentIndex + 1) s
  end.

Definition handlePrev (s : AppState) : list Write :=
  match MockApp.currentIndex s with
  | None => []
  | Some currentIndex =>
      if currentIndex <=? 0 then []
      else showAt (currentIndex - 1) s
  end.

Definition writes (e : Event) (s : AppState) : list Write :=
  match e with
  | CardClick post => handleCardClick post s
  | NextItem => handleNext s
  | PrevItem => handlePrev s
  | CloseMedia => [SetActiveMedia None]
  | MinimizeMedia => [SetMode minimized]
  | RestoreMedia => [SetMode modal]
  | CloseModal => [SetActiveModal None]
  | SearchChange query => [SetSearchQuery query]
  | PostsLoaded loaded => [SetPosts loaded; SetIsLoading false]
  end.

End MockWrites.

(** The writes of each handler of the [App] of [src/types.ts]. *)
Module ApiWrites.
Import ActiveMediaState.

(** [if (activeMedia?.mode === 'modal')
      setActiveMedia(prev => ({ ...prev!, mode: 'minimized' }))] *)
Definition minimizeIfModal (s : AppState) : list Write :=
  match activeMedia s with
  | Some prev => if mode_eqb (mode prev) modal then [SetMode minimized] else []
  | None => []
  end.

Definition handleCardClick (post : Post) (s : AppState) : list Write :=
  let index :=
    JS.findIndex (λ p, String.eqb (_id p) (_id post)) (filtered s) in
  if index =? -1 then []
  else if isMediaPost (type post) then
    let opened :=
      {| ActiveMediaState.post := post; ActiveMediaState.index := index;
         mode := modal; currentTime := Some (or_zero (initialTime post)) |} in
    [ match activeMedia s with
      | Some prev =>
          if String.eqb (_id (ActiveMediaState.post prev)) (_id post)
             && mode_eqb (mode prev) minimized
          then SetMode modal
          else SetActiveMedia (Some opened)
      | None => SetActiveMedia (Some opened)
      end;
      SetActiveModal None ]
  else
    SetActiveModal
      (Some {| ActiveModalState.post := post; ActiveModalState.index := index |})
    :: minimizeIfModal s.

Definition handleNavigate (direction : ApiApp.Direction) (s : AppState) : list Write :=
  match ApiApp.currentItem s with
  | None => []
  | Some currentIndex =>
      let newIndex :=
        match direction with
        | ApiApp.next => currentIndex + 1
        | ApiApp.prev => currentIndex - 1
        end in
      if (newIndex <? 0) || (newIndex >=? JS.len (filtered s)) then []
      else
        match JS.at_index (filtered s) newIndex with
        | None => []
        | Some newPost =>
            if isMediaPost (type newPost) then
              [ SetActiveMedia
                  (Some {| ActiveMediaState.post := newPost;
                           ActiveMediaState.index := newIndex;
                           mode := modal; currentTime := Some 0 |});
                SetActiveModal None ]
            else
              SetActiveModal
                (Some {| ActiveModalState.post := newPost;
                         ActiveModalState.index := newIndex |})
              :: minimizeIfModal s
        end
  end.

Definition writes (e : Event) (s : AppState) : list Write :=
  match e with
  | CardClick post => handleCardClick post s
  | NextItem => handleNavigate ApiApp.next s
  | PrevItem => handleNavigate ApiApp.prev s
  | CloseMedia => [SetActiveMedia None]
  | MinimizeMedia => [SetMode minimized]
  | RestoreMedia => [SetMode modal]
  | CloseModal => [SetActiveModal None]
  | SearchChange query => [SetSearchQuery query]
  | PostsLoaded loaded => [SetPosts loaded; SetIsLoading false]
  end.

End ApiWrites.

(** ** [MinimizedPlayer]: the transport state *)

Module MinimizedPlayer.

(** What the component reads and writes of the [<video>] or [<audio>]
    element behind [mediaRef]; [None] as a duration is [NaN] or
    [Infinity]. The element belongs to the host, which also changes it
    on its own (the clock advances, a new source is loaded). *)
Record MediaElement := {
  paused : bool;
  mediaTime : Z;
  mediaDuration : option Z
}.

(** The [useState] cells ([progress], the percentage drawn in the
    progress bar, is display only and left out), the element, and the
    [data.currentTime] that the listeners of the setup effect closed
    over. *)
Record State := {
  isPlaying : bool;
  duration : option Z;
  currentTime : Z;
  media : MediaElement;
  resumeAt : option Z
}.

Definition setIsPlaying (v : bool) (st : State) : State :=
  {| isPlaying := v; duration := duration st; currentTime := currentTime st;
     media := media st; resumeAt := resumeAt st |}.

Definition setMedia (v : MediaElement) (st : State) : State :=
  {| isPlaying := isPlaying st; duration := duration st;
     currentTime := currentTime st; media := v; resumeAt := resumeAt st |}.

(** [post.type === PostType.Audio || post.type === PostType.Video] *)
Definition isMedia (data : ActiveMediaState.t) : bool :=
  match type (ActiveMediaState.post data) with
  | Audio | Video => true
  | _ => false
  end.

(** [post.fileUrl || ''], the [src] of the element. *)
Definition src (data : ActiveMediaState.t) : string :=
  match fileUrl (ActiveMediaState.post data) with
  | Some url => url
  | None => EmptyString
  end.

(** [post.type === PostType.Video]: the element is a [<video>],
    otherwise an [<audio>]. *)
Definition isVideo (data : ActiveMediaState.t) : bool :=
  match type (ActiveMediaState.post data) with
  | Video => true
  | _ => false
  end.

(** Whether the element of the previous render is still the element
    and still has its resource: React keeps an element while its tag is
    the same, and writes [src] only when it changed. No element is
    rendered for a post that is neither audio nor video; the field
    [media] stands for nothing then. *)
Definition sameElement (old data : ActiveMediaState.t) : bool :=
  negb (isMedia data)
  || (isMedia old && Bool.eqb (isVideo old) (isVideo data)
      && String.eqb (src old) (src data)).

(** An element that was just mounted, or whose [src] was just written
    (the host then loads it anew): paused, at 0, its duration not known
    yet. No [pause] event comes with it, and the component renders the
    element without [autoPlay]. *)
Definition freshElement : MediaElement :=
  {| paused := true; mediaTime := 0; mediaDuration := None |}.

(** The commit of a render with new props, before any effect runs. *)
Definition commit (old data : ActiveMediaState.t) (st : State) : State :=
  if sameElement old data then st else setMedia freshElement st.

Section Host.
(** Whether the host lets playback start. When it does not, the
    promise of [play()] is rejected and the [catch] callback runs in
    a later task: [playRejected] below. *)
Variable allowed : bool.

(** [media.play()] *)
Definition play (st : State) : State :=
  if allowed
  then setMedia {| paused := false; mediaTime := mediaTime (media st);
                   mediaDuration := mediaDuration (media st) |} st
  else st.

(** [media.pause()] *)
Definition pause (st : State) : State :=
  setMedia {| paused := true; mediaTime := mediaTime (media st);
              mediaDuration := mediaDuration (media st) |} st.

(** The effect on [isPlaying, isMedia]: play or pause the element. *)
Definition playbackEffect (data : ActiveMediaState.t) (st : State) : State :=
  if negb (isMedia data) then st
  else if isPlaying st then play st else pause st.

(** The effect on [data.mode, isPlaying, isMedia]: keep playing when
    the player goes from minimized to modal. *)
Definition modeEffect (data : ActiveMediaState.t) (st : State) : State :=
  if isMedia data && mode_eqb (ActiveMediaState.mode data) modal
     && isPlaying st && paused (media st)
  then play st else st.

(** The effect on [post._id, isMedia]: attach the listeners of a new
    item and reset the cells. *)
Definition setupEffect (data : ActiveMediaState.t) (st : State) : State :=
  if negb (isMedia data) then st
  else {| isPlaying := true; duration := Some 0; currentTime := 0;
          media := media st;
          resumeAt := ActiveMediaState.currentTime data |}.

(** The first render of the component: [useState(true)], [useState(0)],
    a fresh element, then every effect in order. *)
Definition mount (data : ActiveMediaState.t) : State :=
  let st0 :=
    {| isPlaying := true; duration := Some 0; currentTime := 0;
       media := {| paused := true; mediaTime := 0; mediaDuration := None |};
       resumeAt := None |} in
  setupEffect data (modeEffect data (playbackEffect data st0)).

(** A later render with new props: the commit, then the effects whose
    dependencies changed, in order, with the [isPlaying] of that
    render; when the setup effect then changed [isPlaying], the render
    that follows runs the two effects that depend on it. *)
Definition update (old data : ActiveMediaState.t) (st : State) : State :=
  let isMediaChanged := negb (Bool.eqb (isMedia old) (isMedia data)) in
  let idChanged :=
    negb (String.eqb (_id (ActiveMediaState.post old))
                     (_id (ActiveMediaState.post data))) in
  let modeChanged :=
    negb (mode_eqb (ActiveMediaState.mode old) (ActiveMediaState.mode data)) in
  let st0 := commit old data st in
  let st1 := if isMediaChanged then playbackEffect data st0 else st0 in
  let st2 := if modeChanged || isMediaChanged then modeEffect data st1 else st1 in
  let st3 :=
    if idChanged || isMediaChanged
    then setupEffect data st2
    else st2 in
  if Bool.eqb (isPlaying st3) (isPlaying st) then st3
  else modeEffect data (playbackEffect data st3).

(** [togglePlay]: flip [isPlaying], then the effects that depend on it. *)
Definition togglePlay (data : ActiveMediaState.t) (st : State) : State :=
  modeEffect data (playbackEffect data (setIsPlaying (negb (isPlaying st)) st)).

(** The [catch] callback of a rejected [play()]. *)
Definition playRejected (data : ActiveMediaState.t) (st : State) : State :=
  if isPlaying st
  then modeEffect data (playbackEffect data (setIsPlaying false st))
  else st.

(** [handlePlay] and [handlePause], the listeners of the [play] and
    [pause] events the element fires when it starts and stops. *)
Definition handlePlay (data : ActiveMediaState.t) (st : State) : State :=
  let st1 :=
    setMedia {| paused := false; mediaTime := mediaTime (media st);
                mediaDuration := mediaDuration (media st) |} st in
  if isPlaying st1 then st1
  else modeEffect data (playbackEffect data (setIsPlaying true st1)).

Definition handlePause (data : ActiveMediaState.t) (st : State) : State :=
  let st1 :=
    setMedia {| paused := true; mediaTime := mediaTime (media st);
                mediaDuration := mediaDuration (media st) |} st in
  if isPlaying st1
  then modeEffect data (playbackEffect data (setIsPlaying false st1))
  else st1.

(** [handleLoadedMetadata], once the host knows the duration [d]. *)
Definition handleLoadedMetadata (d : option Z) (st : State) : State :=
  let seekTo :=
    match resumeAt st with
    | Some t => if t =? 0 then mediaTime (media st) else t
    | None => mediaTime (media st)
    end in
  {| isPlaying := isPlaying st; duration := d; currentTime := currentTime st;
     media := {| paused := paused (media st); mediaTime := seekTo;
                 mediaDuration := d |};
     resumeAt := resumeAt st |}.

(** [handleTimeUpdate], the clock of the host being at [t]. *)
Definition handleTimeUpdate (t : Z) (st : State) : State :=
  let m := {| paused := paused (media st); mediaTime := t;
              mediaDuration := mediaDuration (media st) |} in
  match mediaDuration (media st) with
  | None => setMedia m st
  | Some _ =>
      {| isPlaying := isPlaying st; duration := duration st; currentTime := t;
         media := m; resumeAt := resumeAt st |}
  end.

(** What the player is after [App] rendered again: unmounted when there
    is no active media, mounted when there was none before. *)
Definition render (old : option ActiveMediaState.t)
    (data : option ActiveMediaState.t) (pl : option State) : option State :=
  match data with
  | None => None
  | Some d =>
      match old, pl with
      | Some d0, Some st => Some (update d0 d st)
      | _, _ => Some (mount d)
      end
  end.

End Host.

End MinimizedPlayer.

(** ** [Modal]: what its keys and swipes ask of [App] *)

Module Modal.

Inductive Key := Escape | ArrowRight | ArrowLeft.

Inductive Swipe := SwipedLeft | SwipedRight | SwipedUp | SwipedDown.

(** [handleKeyDown], with the props [currentIndex] (the index of the
    active modal) and [totalPosts] (the length of the filtered list);
    [onClose], [onNext] and [onPrev] are the handlers of [CloseModal],
    [NextItem] and [PrevItem]. *)
Definition handleKeyDown (currentIndex totalPosts : Z) (key : Key) : option Event :=
  match key with
  | Escape => Some CloseModal
  | ArrowRight => if currentIndex <? totalPosts - 1 then Some NextItem else None
  | ArrowLeft => if currentIndex >? 0 then Some PrevItem else None
  end.

(** [swipeHandlers]: the modal has no minimized state, a swipe down
    closes it. *)
Definition swipeHandlers (currentIndex totalPosts : Z) (swipe : Swipe) : option Event :=
  match swipe with
  | SwipedLeft => if currentIndex <? totalPosts - 1 then Some NextItem else None
  | SwipedRight => if currentIndex >? 0 then Some PrevItem else None
  | SwipedUp => Some CloseModal
  | SwipedDown => Some CloseModal
  end.

End Modal.

(** ** [App] and its player together *)

Record System := {
  app : AppState;
  player : option MinimizedPlayer.State
}.

(** An intent handled by [App], followed by the render it causes. *)
Definition dispatch (allowed : bool) (handler : AppState → AppState)
    (sys : System) : System :=
  let s' := handler (app sys) in
  {| app := s';
     player := MinimizedPlayer.render allowed (activeMedia (app sys))
                 (activeMedia s') (player sys) |}.

(** The transport state of the specification, read off the system: where
    playback is to start ([activeMedia.currentTime]), and the [isPlaying]
    and [currentTime] cells of the player. *)
Record Transport := {
  startAt : option Z;
  playing : bool;
  elapsed : Z
}.

Definition transport (sys : System) : option Transport :=
  match activeMedia (app sys), player sys with
  | Some data, Some st =>
      Some {| startAt := ActiveMediaState.currentTime data;
              playing := MinimizedPlayer.isPlaying st;
              elapsed := MinimizedPlayer.currentTime st |}
  | _, _ => None
  end.

(** ** [src/components/useSwipe.ts]: from touches to a swipe *)

Module useSwipe.

(** Minimum distance (in pixels) for a swipe to be registered, and
    maximum time (in milliseconds) for a swipe. *)
Definition MIN_SWIPE_DISTANCE : Z := 50.
Definition MAX_SWIPE_TIME : Z := 500.

(** A touch point of the event, and the [touchStart] cell without its
    [null]. *)
Record Touch := { clientX : Z; clientY : Z }.

Record TouchStart := { x : Z; y : Z; time : Z }.

(** [onTouchStart], [now] being [Date.now()]: only single-finger
    touches are tracked. *)
Definition onTouchStart (touches : list Touch) (now : Z) : option TouchStart :=
  match touches with
  | [touch] => Some {| x := clientX touch; y := clientY touch; time := now |}
  | _ => None
  end.

(** [onTouchEnd]: the next [touchStart] and the callback that is called,
    named by the swipe it stands for. *)
Definition onTouchEnd (touchStart : option TouchStart) (changedTouches : list Touch)
    (now : Z) : option TouchStart * option Modal.Swipe :=
  match touchStart, changedTouches with
  | Some start, [touch] =>
      let dx := clientX touch - x start in
      let dy := clientY touch - y start in
      let dt := now - time start in
      if dt >? MAX_SWIPE_TIME then (None, None)
      else
        let absDx := Z.abs dx in
        let absDy := Z.abs dy in
        if Z.max absDx absDy >? MIN_SWIPE_DISTANCE then
          if absDx >? absDy then
            if dx >? 0 then (None, Some Modal.SwipedRight)
            else (None, Some Modal.SwipedLeft)
          else
            if dy >? 0 then (None, Some Modal.SwipedDown)
            else (None, Some Modal.SwipedUp)
        else (None, None)
  | _, _ => (touchStart, None)
  end.

Definition onTouchCancel : option TouchStart := None.

(** The three touch events an element with the handlers receives. *)
Inductive TouchEvent :=
| TouchStarted (touches : list Touch) (now : Z)
| TouchEnded (changedTouches : list Touch) (now : Z)
| TouchCancelled.

Definition handle (e : TouchEvent) (touchStart : option TouchStart)
    : option TouchStart * option Modal.Swipe :=
  match e with
  | TouchStarted touches now => (onTouchStart touches now, None)
  | TouchEnded changedTouches now => onTouchEnd touchStart changedTouches now
  | TouchCancelled => (onTouchCancel, None)
  end.

(** The callbacks called along a sequence of touch events, in order. *)
Fixpoint run (events : list TouchEvent) (touchStart : option TouchStart)
    : list Modal.Swipe :=
  match events with
  | [] => []
  | e :: rest =>
      let '(next, called) := handle e touchStart in
      option_list called ++ run rest next
  end.

End useSwipe.

(** ** [MinimizedPlayer]: what its gestures ask of [App], and [formatTime] *)

Module PlayerView.

(** [swipeHandlers], with the props [hasNext] and [hasPrev]; [onClose]
    and [onMinimize] are the handlers of [CloseMedia] and
    [MinimizeMedia]. *)
Definition swipeHandlers (hasNext hasPrev : bool) (swipe : Modal.Swipe) : option Event :=
  match swipe with
  | Modal.SwipedLeft => if hasNext then Some NextItem else None
  | Modal.SwipedRight => if hasPrev then Some PrevItem else None
  | Modal.SwipedUp => Some CloseMedia
  | Modal.SwipedDown => Some MinimizeMedia
  end.

(** The touch handlers are spread on the root element only while the
    player is in the mode [modal]. *)
Definition onSwipe (data : ActiveMediaState.t) (hasNext hasPrev : bool)
    (swipe : Modal.Swipe) : option Event :=
  if mode_eqb (ActiveMediaState.mode data) modal
  then swipeHandlers hasNext hasPrev swipe
  else None.

(** [handleBackdropClick = isModal ? onMinimize : onRestore] *)
Definition handleBackdropClick (data : ActiveMediaState.t) : Event :=
  if mode_eqb (ActiveMediaState.mode data) modal then MinimizeMedia else RestoreMedia.

(** The media-session action handlers [nexttrack] and [previoustrack]. *)
Definition nexttrack (hasNext : bool) : option Event :=
  if hasNext then Some NextItem else None.

Definition previoustrack (hasPrev : bool) : option Event :=
  if hasPrev then Some PrevItem else None.

(** A whole number in a template literal: its decimal digits, after a
    minus sign when it is negative. That is how the host writes a whole
    number below 10^21 in size; from there on it writes an exponent,
    which is outside of the model. *)
Definition toString (n : Z) : string :=
  DecimalString.NilZero.string_of_int (Z.to_int n).

(** [formatTime]; [None] is a value that is [NaN] or [Infinity]. With
    whole seconds [Math.floor(seconds)] is [seconds];
    [Math.floor(floorSeconds / 60)] rounds down and [%] truncates. The
    seconds are whole numbers below 2^53 in size, where a [number] is
    exact and the division, once rounded down, is the whole quotient. *)
Definition formatTime (seconds : option Z) : string :=
  match seconds with
  | None => "0:00"
  | Some floorSeconds =>
      let min := floorSeconds / 60 in
      let sec := Z.rem floorSeconds 60 in
      let pad := if sec <? 10 then "0"%string else ""%string in
      (toString min ++ ":" ++ pad ++ toString sec)%string
  end.

End PlayerView.

(** ** [MinimizedPlayer]: seeking on the progress bar *)

Module Seek.
Import QArith Qminmax.

(** The [left] and the [width] of [getBoundingClientRect()]. The
    fraction of the bar a click falls on is not a whole number, so the
    pixels and the seconds are rationals here; a [width] of 0, where the
    code computes with [NaN] or [Infinity], is outside of the model. *)
Record Rect := { left : Q; width : Q }.

(** [handleSeek]: what [media.currentTime] is set to. Nothing is set
    without a progress bar ([None] as [progressBar]), and nothing
    without an element or while its duration is not finite ([None] as
    [duration]). *)
Definition handleSeek (progressBar : option Rect) (duration : option Q) (clientX : Q)
    : option Q :=
  match progressBar, duration with
  | Some rect, Some d =>
      let clickX := (clientX - left rect)%Q in
      let percentage := Qmax 0 (Qmin 1 (clickX / width rect)) in
      Some (percentage * d)%Q
  | _, _ => None
  end.

End Seek.

(** ** What [App] hands to the player *)

Module MockView.

(** [activeMedia?.index ?? activeModal?.index ?? -1] *)
Definition currentIndex (s : AppState) : Z := default (-1) (MockApp.currentIndex s).

Definition hasNext (s : AppState) : bool := currentIndex s <? JS.len (filtered s) - 1.
Definition hasPrev (s : AppState) : bool := currentIndex s >? 0.

(** The state after a swipe on the full-screen player. *)
Definition playerSwiped (swipe : Modal.Swipe) (s : AppState) : AppState :=
  match activeMedia s with
  | Some data =>
      match PlayerView.onSwipe data (hasNext s) (hasPrev s) swipe with
      | Some e => MockApp.step e s
      | None => s
      end
  | None => s
  end.

(** The state after a swipe on the modal. *)
Definition modalSwiped (swipe : Modal.Swipe) (s : AppState) : AppState :=
  match activeModal s with
  | Some d =>
      match Modal.swipeHandlers (ActiveModalState.index d) (JS.len (filtered s)) swipe with
      | Some e => MockApp.step e s
      | None => s
      end
  | None => s
  end.

End MockView.

Module ApiView.

(** [activeMedia.index < filteredPosts.length - 1] and
    [activeMedia.index > 0], computed where the player is rendered. *)
Definition hasNext (data : ActiveMediaState.t) (s : AppState) : bool :=
  ActiveMediaState.index data <? JS.len (filtered s) - 1.

Definition hasPrev (data : ActiveMediaState.t) : bool :=
  ActiveMediaState.index data >? 0.

(** The state after a swipe on the player. *)
Definition playerSwiped (swipe : Modal.Swipe) (s : AppState) : AppState :=
  match activeMedia s with
  | Some data =>
      match PlayerView.onSwipe data (hasNext data s) (hasPrev data) swipe with
      | Some e => ApiApp.step e s
      | None => s
      end
  | None => s
  end.

(** The state after a key pressed while the modal is open. *)
Definition modalKeyDown (key : Modal.Key) (s : AppState) : AppState :=
  match activeModal s with
  | Some d =>
      match Modal.handleKeyDown (ActiveModalState.index d) (JS.len (filtered s)) key with
      | Some e => ApiApp.step e s
      | None => s
      end
  | None => s
  end.

(** The state after a swipe on the modal. *)
Definition modalSwiped (swipe : Modal.Swipe) (s : AppState) : AppState :=
  match activeModal s with
  | Some d =>
      match Modal.swipeHandlers (ActiveModalState.index d) (JS.len (filtered s)) swipe with
      | Some e => ApiApp.step e s
      | None => s
      end
  | None => s
  end.

End ApiView.

(** * Observations and specification-side notions *)

Module FilterSpec.

(** A capital letter of ASCII. *)
Definition isCapital (c : ascii) : Prop :=
  (65 ≤ nat_of_ascii c ≤ 90)%nat.

(** Two characters are the same letter when they are equal or one is
    the capital of the other, 32 codes below it. *)
Definition sameLetter (a b : ascii) : Prop :=
  a = b
  ∨ (isCapital a ∧ nat_of_ascii b = nat_of_ascii a + 32)%nat
  ∨ (isCapital b ∧ nat_of_ascii a = nat_of_ascii b + 32)%nat.

(** Two strings that read the same, letter case apart. *)
Fixpoint equalIgnoringCase (a b : string) : Prop :=
  match a, b with
  | EmptyString, EmptyString => True
  | String x a', String y b' => sameLetter x y ∧ equalIgnoringCase a' b'
  | _, _ => False
  end.

(** The specification's reading of a match: some stretch of the text
    is the query, letter case apart. *)
Definition containsIgnoringCase (text query : string) : Prop :=
  ∃ before occurrence after,
    text = (before ++ occurrence ++ after)%string
    ∧ equalIgnoringCase occurrence query.

(** The searched fields a post has. *)
Definition textFields (post : Post) : list string :=
  title post
    :: option_list (description post)
    ++ option_list (noteText post)
    ++ option_list (quoteText post).

Definition matchesQuery (query : string) (post : Post) : Prop :=
  ∃ text, text ∈ textFields post ∧ containsIgnoringCase text query.

(** Text of ASCII characters only. *)
Fixpoint isAscii (s : string) : bool :=
  match s with
  | EmptyString => true
  | String c rest => Nat.ltb (nat_of_ascii c) 128 && isAscii rest
  end.




End FilterSpec.

(** Sample posts, used where a property is run on concrete data. *)
Module Sample.
Local Open Scope string_scope.

Definition mkPost (id name : string) (t : PostType) (body : option string)
    (resume : option Z) : Post :=
  {| _id := id; createdAt := "2024-01-01"; title := name; type := t;
     description := None; fileUrl := None; coverUrl := None;
     noteText := body; quoteText := None; source := None; tags := None;
     initialTime := resume |}.

Definition clip := mkPost "v1" "Sunset Timelapse" Video None None.
Definition song := mkPost "a1" "Morning Raga" Audio None (Some 12).
Definition memo := mkPost "n1" "Groceries" Note (Some "Buy oat MILK") None.
Definition idea := mkPost "n2" "Ideas" Note (Some "") None.

Definition catalog : list Post := [clip; song; memo; idea].

(** [App] once [catalog] is loaded, nothing searched, nothing open. *)
Definition loaded : AppState := setIsLoading false (setPosts catalog initialState).
End Sample.

Inductive DisplayMode := FullScreen | Minimized.

Definition displayMode (m : Mode) : DisplayMode :=
  match m with
  | modal => FullScreen
  | minimized => Minimized
  end.

(** The items that are active, each with the way it is displayed: the
    one of the player, and the one of [Modal], which has no minimized
    rendering and always covers the screen. *)
Definition activeItems (s : AppState) : list (Post * DisplayMode) :=
  match activeMedia s with
  | Some m => [(ActiveMediaState.post m, displayMode (ActiveMediaState.mode m))]
  | None => []
  end
  ++
  match activeModal s with
  | Some d => [(ActiveModalState.post d, FullScreen)]
  | None => []
  end.

Definition playable (item : Post * DisplayMode) : bool := isMediaPost (type item.1).

(** At most one audio or video item and at most one item of another
    kind are active. *)
Definition onePerKind (s : AppState) : Prop :=
  (length (List.filter playable (activeItems s)) ≤ 1)%nat
  ∧ (length (List.filter (λ item, negb (playable item)) (activeItems s)) ≤ 1)%nat.

(** The player only ever holds audio and video, the modal never does. *)
Definition slots_ok (s : AppState) : Prop :=
  (∀ m, activeMedia s = Some m → isMediaPost (type (ActiveMediaState.post m)) = true)
  ∧ (∀ d, activeModal s = Some d → isMediaPost (type (ActiveModalState.post d)) = false).

(** A write that respects the kinds of the slots. *)
Definition wellKinded (w : Write) : Prop :=
  match w with
  | SetActiveMedia (Some m) => isMediaPost (type (ActiveMediaState.post m)) = true
  | SetActiveModal (Some d) => isMediaPost (type (ActiveModalState.post d)) = false
  | _ => True
  end.

(** The player is mounted exactly while there is an active media. *)
Definition mounted (sys : System) : Prop :=
  match activeMedia (app sys), player sys with
  | Some _, Some _ | None, None => True
  | _, _ => False
  end.

(** The state with [post] at [index] in the player, full screen, to be
    played from [start], and no modal. *)
Definition showMedia (post : Post) (index start : Z) (s : AppState) : AppState :=
  setActiveModal None
    (setActiveMedia
       (Some {| ActiveMediaState.post := post; ActiveMediaState.index := index;
                ActiveMediaState.mode := modal;
                ActiveMediaState.currentTime := Some start |}) s).

(** The state with [post] at [index] in the modal. *)
Definition showModal (post : Post) (index : Z) (s : AppState) : AppState :=
  setActiveModal
    (Some {| ActiveModalState.post := post; ActiveModalState.index := index |}) s.

Definition offset (dir : ApiApp.Direction) : Z :=
  match dir with
  | ApiApp.next => 1
  | ApiApp.prev => -1
  end.

(** What a navigation step of the mock-data variant leaves when it shows
    [x], read at position [i]. *)
Definition shown (x : Post) (i : Z) (s : AppState) : AppState :=
  if isMediaPost (type x) then showMedia x i 0 s else showModal x i s.

(** What a navigation step of the remote-API variant leaves when it
    shows [x], read at position [i]. *)
Definition api_shown (x : Post) (i : Z) (s : AppState) : AppState :=
  if isMediaPost (type x) then showMedia x i 0 s
  else ApiApp.minimizeIfModal (showModal x i s).

(** The intents the variants are compared on. *)
Definition opensOrNavigates (e : Event) : Prop :=
  match e with
  | CardClick _ | NextItem | PrevItem => True
  | _ => False
  end.

(** Nothing of the transport changed, and playback was not paused:
    the cells, the position and the duration of the element are the
    same, and the element is paused only if it was. *)
Definition keptPlayback (st st' : MinimizedPlayer.State) : Prop :=
  MinimizedPlayer.isPlaying st' = MinimizedPlayer.isPlaying st
  ∧ MinimizedPlayer.currentTime st' = MinimizedPlayer.currentTime st
  ∧ MinimizedPlayer.duration st' = MinimizedPlayer.duration st
  ∧ MinimizedPlayer.resumeAt st' = MinimizedPlayer.resumeAt st
  ∧ MinimizedPlayer.mediaTime (MinimizedPlayer.media st')
    = MinimizedPlayer.mediaTime (MinimizedPlayer.media st)
  ∧ MinimizedPlayer.mediaDuration (MinimizedPlayer.media st')
    = MinimizedPlayer.mediaDuration (MinimizedPlayer.media st)
  ∧ (MinimizedPlayer.paused (MinimizedPlayer.media st') = true →
     MinimizedPlayer.paused (MinimizedPlayer.media st) = true).

(** The four navigation handlers, each with the position it starts from
    and the direction it moves in. *)
Inductive navigation :
  (AppState → option Z) → (AppState → outcome) → Z → Prop :=
| nav_mock_next : navigation MockApp.currentIndex MockApp.handleNext 1
| nav_mock_prev : navigation MockApp.currentIndex MockApp.handlePrev (-1)
| nav_api_next : navigation ApiApp.currentItem ApiApp.handleNext 1
| nav_api_prev : navigation ApiApp.currentItem ApiApp.handlePrev (-1).

(** The swipe seen in a mirror that exchanges left and right. *)
Definition mirrored (swipe : Modal.Swipe) : Modal.Swipe :=
  match swipe with
  | Modal.SwipedLeft => Modal.SwipedRight
  | Modal.SwipedRight => Modal.SwipedLeft
  | other => other
  end.

(** The starts of the sequence that [onTouchStart] keeps. *)
Definition trackedStarts (events : list useSwipe.TouchEvent) : nat :=
  length
    (List.filter
       (λ e, match e with
             | useSwipe.TouchStarted [_] _ => true
             | _ => false
             end) events).

(** The seconds as [formatTime] writes them after the colon. *)
Definition secondsPart (sec : Z) : string :=
  String.append (if sec <? 10 then "0"%string else ""%string)
    (PlayerView.toString sec).

(** Whether a start is being tracked, as a number. *)
Definition pending (touchStart : option useSwipe.TouchStart) : nat :=
  match touchStart with
  | Some _ => 1
  | None => 0
  end.

(** Both slots record their item at a position that satisfies [Q],
    given the filtered list of now. *)
Definition slotsSatisfy (Q : list Post → Post → Z → Prop) (s : AppState) : Prop :=
  (∀ m, activeMedia s = Some m →
        Q (filtered s) (ActiveMediaState.post m) (ActiveMediaState.index m))
  ∧ (∀ d, activeModal s = Some d →
          Q (filtered s) (ActiveModalState.post d) (ActiveModalState.index d)).

(** No recorded position is negative. *)
Definition indexes_ok (s : AppState) : Prop :=
  slotsSatisfy (λ _ _ i, 0 ≤ i) s.

(** The list holds, at position [i], a post with the identifier of
    [post]. *)
Definition pointsAt (list : list Post) (post : Post) (i : Z) : Prop :=
  ∃ p, JS.at_index list i = Some p ∧ _id p = _id post.

(** Every active item is recorded at a position where the filtered list
    of now holds it. *)
Definition positions_ok (s : AppState) : Prop := slotsSatisfy pointsAt s.

(** The events that change the filtered list. *)
Definition changesList (e : Event) : Prop :=
  match e with
  | SearchChange _ | PostsLoaded _ => True
  | _ => False
  end.

(** How many active items cover the screen. *)
Definition fullScreenCount (s : AppState) : nat :=
  length
    (List.filter
       (λ item : Post * DisplayMode,
          match item.2 with FullScreen => true | Minimized => false end)
       (activeItems s)).

(** * Properties *)

(** ** The search filter *)

Section StringFacts.
Local Open Scope string_scope.

Lemma startsWith_spec s t :
  JS.startsWith s t = true ↔ ∃ rest, s = t ++ rest.
Proof.
  revert s. induction t as [|b t IH]; intros s; simpl.
  - split; [intros _; by exists s | done].
  - destruct s as [|a s]; simpl.
    + split; [done | intros [rest ?]; discriminate].
    + rewrite andb_true_iff, Ascii.eqb_eq, IH. split.
      * intros [-> [rest ->]]. by exists rest.
      * intros [rest Heq]. injection Heq as -> ->. eauto.
Qed.

Lemma includes_spec s t :
  JS.includes s t = true ↔ ∃ before after, s = before ++ t ++ after.
Proof.
  induction s as [|a s IH]; simpl; rewrite orb_true_iff, startsWith_spec.
  - split.
    + intros [[rest ->]|?]; [|done]. by exists "", rest.
    + intros [[|c before] [after Heq]]; [|discriminate]. left. by exists after.
  - rewrite IH. split.
    + intros [[rest ->]|(before & after & ->)].
      * by exists "", rest.
      * by exists (String a before), after.
    + intros [[|c before] [after Heq]].
      * left. by exists after.
      * right. injection Heq as -> ->. by exists before, after.
Qed.

Lemma toLowerCase_app a b :
  JS.toLowerCase (a ++ b) = JS.toLowerCase a ++ JS.toLowerCase b.
Proof. induction a as [|c a IH]; simpl; [done | by rewrite IH]. Qed.

Lemma toLowerCase_split s a b :
  JS.toLowerCase s = a ++ b →
  ∃ s1 s2, s = s1 ++ s2 ∧ JS.toLowerCase s1 = a ∧ JS.toLowerCase s2 = b.
Proof.
  revert s. induction a as [|c a IH]; intros s Heq; simpl in Heq.
  - by exists "", s.
  - destruct s as [|d s]; simpl in Heq; [discriminate|].
    injection Heq as Hc Hs. destruct (IH _ Hs) as (s1 & s2 & -> & <- & <-).
    exists (String d s1), s2. simpl. by rewrite Hc.
Qed.

Lemma toLowerCase_truthy s : JS.truthy (JS.toLowerCase s) = JS.truthy s.
Proof. by destruct s. Qed.

Lemma nat_of_lower_ascii c :
  nat_of_ascii (JS.lower_ascii c)
  = if (Nat.leb 65 (nat_of_ascii c) && Nat.leb (nat_of_ascii c) 90)%bool
    then (nat_of_ascii c + 32)%nat else nat_of_ascii c.
Proof.
  unfold JS.lower_ascii.
  destruct (Nat.leb 65 _ && Nat.leb _ 90)%bool eqn:Hcap; [|done].
  apply andb_true_iff in Hcap as [_ Hle%Nat.leb_le].
  apply nat_ascii_embedding. lia.
Qed.

Lemma nat_of_ascii_inj a b : nat_of_ascii a = nat_of_ascii b → a = b.
Proof.
  intros Heq. rewrite <- (ascii_nat_embedding a), <- (ascii_nat_embedding b).
  by rewrite Heq.
Qed.

Lemma capital_cases c :
  (FilterSpec.isCapital c
   ∧ nat_of_ascii (JS.lower_ascii c) = nat_of_ascii c + 32)%nat
  ∨ (¬ FilterSpec.isCapital c ∧ JS.lower_ascii c = c).
Proof.
  unfold FilterSpec.isCapital. pose proof (nat_of_lower_ascii c) as Hn.
  unfold JS.lower_ascii in *.
  destruct (Nat.leb_spec 65 (nat_of_ascii c)), (Nat.leb_spec (nat_of_ascii c) 90);
    simpl in *; [left | right..]; split; try done; lia.
Qed.

(** Lower-casing identifies exactly the characters that are the same
    letter. *)
Lemma lower_ascii_sameLetter a b :
  JS.lower_ascii a = JS.lower_ascii b ↔ FilterSpec.sameLetter a b.
Proof.
  unfold FilterSpec.sameLetter.
  destruct (capital_cases a) as [[Ha Hla]|[Ha Hla]],
           (capital_cases b) as [[Hb Hlb]|[Hb Hlb]];
    unfold FilterSpec.isCapital in *.
  - split; [|intros [->|[[_ ?]|[_ ?]]]; [done | lia..]].
    intros Heq%(f_equal nat_of_ascii). left. apply nat_of_ascii_inj. lia.
  - rewrite Hlb. split.
    + intros <-. right. left. split; [done | lia].
    + intros [->|[[_ Heq]|[? _]]]; [lia| |lia].
      apply nat_of_ascii_inj. lia.
  - rewrite Hla. split.
    + intros ->. right. right. split; [done | lia].
    + intros [->|[[? _]|[_ Heq]]]; [lia|lia|].
      apply nat_of_ascii_inj. lia.
  - rewrite Hla, Hlb. split; [by left|]. intros [->|[[? _]|[? _]]]; [done | lia..].
Qed.

Lemma toLowerCase_equalIgnoringCase a b :
  JS.toLowerCase a = JS.toLowerCase b ↔ FilterSpec.equalIgnoringCase a b.
Proof.
  revert b. induction a as [|x a IH]; intros [|y b]; simpl; try done.
  rewrite <- IH, <- lower_ascii_sameLetter. split.
  - by intros [= -> ->].
  - by intros [-> ->].
Qed.

(** Lower-casing the text and searching the lower-cased query in it
    finds the occurrences of the query, case apart. *)
Lemma includes_toLowerCase text query :
  JS.includes (JS.toLowerCase text) (JS.toLowerCase query) = true
  ↔ FilterSpec.containsIgnoringCase text query.
Proof.
  rewrite includes_spec. split.
  - intros (before & after & Heq).
    apply toLowerCase_split in Heq as (s1 & s2 & -> & <- & Heq).
    apply toLowerCase_split in Heq as (s3 & s4 & -> & Hq & <-).
    exists s1, s3, s4. split; [done|]. by apply toLowerCase_equalIgnoringCase.
  - intros (before & occ & after & -> & Hq%toLowerCase_equalIgnoringCase).
    exists (JS.toLowerCase before), (JS.toLowerCase after).
    by rewrite !toLowerCase_app, Hq.
Qed.

(** An empty text holds no occurrence of a query that is not empty. *)
Lemma containsIgnoringCase_empty query :
  JS.truthy query = true → ¬ FilterSpec.containsIgnoringCase "" query.
Proof.
  intros Hq (before & occ & after & Heq & Hocc).
  destruct before; [|discriminate]. destruct occ; [|discriminate].
  by destruct query.
Qed.

Lemma fieldIncludes_spec field query :
  JS.truthy query = true →
  fieldIncludes field (JS.toLowerCase query) = true
  ↔ ∃ text, text ∈ option_list field ∧ FilterSpec.containsIgnoringCase text query.
Proof.
  intros Hq. destruct field as [text|]; simpl.
  - rewrite andb_true_iff, includes_toLowerCase. split.
    + intros [_ ?]. exists text. split; [apply list_elem_of_singleton|]; done.
    + intros (text' & Hin & Hc). apply list_elem_of_singleton in Hin as ->.
      split; [|done].
      destruct text; [|done]. by apply containsIgnoringCase_empty in Hc.
  - split; [done|]. intros (text & Hin & _). by apply elem_of_nil in Hin.
Qed.

Lemma postMatches_spec query post :
  JS.truthy query = true →
  postMatches (JS.toLowerCase query) post = true
  ↔ FilterSpec.matchesQuery query post.
Proof.
  intros Hq. unfold postMatches, Host.postMatches, FilterSpec.matchesQuery,
    FilterSpec.textFields.
  change (Host.fieldIncludes JS.toLowerCase) with fieldIncludes.
  rewrite !orb_true_iff, includes_toLowerCase, !(fieldIncludes_spec _ _ Hq).
  split.
  - intros [[[?|(t & ? & ?)]|(t & ? & ?)]|(t & ? & ?)].
    + exists (title post). split; [left|done].
    + exists t. split; [|done]. right. rewrite !elem_of_app. auto.
    + exists t. split; [|done]. right. rewrite !elem_of_app. auto.
    + exists t. split; [|done]. right. rewrite !elem_of_app. auto.
  - intros (t & Hin & Hc).
    apply elem_of_cons in Hin as [->|Hin]; [by left; left; left|].
    rewrite !elem_of_app in Hin. destruct Hin as [?|[?|?]]; eauto 10.
Qed.

(** Every text holds the empty query. *)
Lemma matchesQuery_empty post : FilterSpec.matchesQuery "" post.
Proof.
  exists (title post). split; [left|]. by exists "", "", (title post).
Qed.

Lemma isAscii_app a b :
  FilterSpec.isAscii (a ++ b) = FilterSpec.isAscii a && FilterSpec.isAscii b.
Proof. induction a as [|c a IH]; simpl; [done | by rewrite IH, andb_assoc]. Qed.


End StringFacts.

(** The filter for any lower-casing of the host that keeps a text that
    is not empty from becoming empty and that is the ASCII one on text
    of ASCII characters, as [String.prototype.toLowerCase] is and does. *)
Section HostFilter.
Local Open Scope string_scope.
Variable lower : string → string.
Hypothesis lower_nonempty : ∀ s, s ≠ "" → lower s ≠ "".
Hypothesis lower_ascii : ∀ s, FilterSpec.isAscii s = true → lower s = JS.toLowerCase s.






End HostFilter.

Section ListFacts.
Context {A : Type} (f : A → bool).

Lemma filter_sublist (l : list A) : List.filter f l `sublist_of` l.
Proof.
  induction l as [|x l IH]; simpl; [constructor|].
  destruct (f x); by constructor.
Qed.


End ListFacts.

Example filteredPosts_milk :
  filteredPosts Sample.catalog "milk" = [Sample.memo].
Proof. reflexivity. Qed.

Example filteredPosts_uppercase_query :
  filteredPosts Sample.catalog "RAGA" = [Sample.song].
Proof. reflexivity. Qed.

Example filteredPosts_no_match :
  filteredPosts Sample.catalog "zebra" = [].
Proof. reflexivity. Qed.



Ltac slots :=
  unfold slots_ok in *; simpl in *; split; intros ? ?;
  repeat case_match; simplify_eq/=; eauto.

Lemma slots_ok_switchMode m s : slots_ok s → slots_ok (switchMode m s).
Proof. intros [Hm Hd]. unfold switchMode. slots. Qed.

Lemma slots_ok_minimizeIfModal s : slots_ok s → slots_ok (ApiApp.minimizeIfModal s).
Proof. intros [Hm Hd]. unfold ApiApp.minimizeIfModal. slots. Qed.

Lemma slots_ok_mock_handleCardClick post s :
  slots_ok s → slots_ok (MockApp.handleCardClick post s).
Proof. intros [Hm Hd]. unfold MockApp.handleCardClick. slots. Qed.

Lemma slots_ok_api_handleCardClick post s :
  slots_ok s → slots_ok (ApiApp.handleCardClick post s).
Proof.
  intros Hs. unfold ApiApp.handleCardClick.
  repeat case_match; try done.
  all: try apply slots_ok_minimizeIfModal.
  all: destruct Hs as [Hm Hd]; slots.
Qed.

Lemma slots_ok_showAt i s s' :
  slots_ok s → MockApp.showAt i s = Returned s' → slots_ok s'.
Proof.
  intros [Hm Hd]. unfold MockApp.showAt.
  repeat case_match; intros [= <-]; slots.
Qed.

Lemma slots_ok_mock_step e s : slots_ok s → slots_ok (MockApp.step e s).
Proof.
  intros Hs. destruct e; simpl.
  - by apply slots_ok_mock_handleCardClick.
  - unfold MockApp.handleNext. repeat case_match; simpl; try done.
    destruct (MockApp.showAt _ s) eqn:Hshow; simpl; [|done].
    by eapply slots_ok_showAt.
  - unfold MockApp.handlePrev. repeat case_match; simpl; try done.
    destruct (MockApp.showAt _ s) eqn:Hshow; simpl; [|done].
    by eapply slots_ok_showAt.
  - destruct Hs as [Hm Hd]. split; [done | apply Hd].
  - by apply slots_ok_switchMode.
  - by apply slots_ok_switchMode.
  - destruct Hs as [Hm Hd]. split; [apply Hm | done].
  - exact Hs.
  - exact Hs.
Qed.

Lemma slots_ok_handleNavigate dir s s' :
  slots_ok s → ApiApp.handleNavigate dir s = Returned s' → slots_ok s'.
Proof.
  intros Hs. unfold ApiApp.handleNavigate.
  repeat case_match; intros [= <-]; try done.
  all: try apply slots_ok_minimizeIfModal.
  all: destruct Hs as [Hm Hd]; slots.
Qed.

Lemma slots_ok_api_step e s : slots_ok s → slots_ok (ApiApp.step e s).
Proof.
  intros Hs. destruct e; simpl.
  - by apply slots_ok_api_handleCardClick.
  - destruct (ApiApp.handleNext s) eqn:Hnav; simpl; [|done].
    by eapply slots_ok_handleNavigate.
  - destruct (ApiApp.handlePrev s) eqn:Hnav; simpl; [|done].
    by eapply slots_ok_handleNavigate.
  - destruct Hs as [Hm Hd]. split; [done | apply Hd].
  - by apply slots_ok_switchMode.
  - by apply slots_ok_switchMode.
  - destruct Hs as [Hm Hd]. split; [apply Hm | done].
  - exact Hs.
  - exact Hs.
Qed.

Lemma slots_ok_initial : slots_ok initialState.
Proof. by split. Qed.

Lemma mock_reachable_slots_ok s : MockApp.reachable s → slots_ok s.
Proof.
  induction 1; [apply slots_ok_initial | by apply slots_ok_mock_step].
Qed.

Lemma api_reachable_slots_ok s : ApiApp.reachable s → slots_ok s.
Proof.
  induction 1; [apply slots_ok_initial | by apply slots_ok_api_step].
Qed.

(** ** [findIndex] and array reads *)

Section FindIndex.
Context {A : Type} (f : A → bool).

Lemma findIndex_from_absent (l : list A) i :
  (∀ x, x ∈ l → f x = false) → JS.findIndex_from f l i = -1.
Proof.
  revert i. induction l as [|x l IH]; intros i Hall; simpl; [done|].
  rewrite (Hall x) by left. apply IH. intros y Hy. apply Hall. by right.
Qed.

Lemma findIndex_from_found (l : list A) i :
  0 ≤ i → JS.findIndex_from f l i ≠ -1 →
  ∃ x, l !! Z.to_nat (JS.findIndex_from f l i - i) = Some x
       ∧ f x = true ∧ i ≤ JS.findIndex_from f l i < i + JS.len l.
Proof.
  revert i. induction l as [|x l IH]; intros i Hi; simpl; [done|].
  destruct (f x) eqn:Hfx; intros Hne.
  - exists x. rewrite Z.sub_diag. unfold JS.len. simpl length.
    split; [done|]. split; [done | lia].
  - destruct (IH (i + 1) ltac:(lia) Hne) as (y & Hy & Hfy & Hr).
    exists y. unfold JS.len in *. simpl length. split; [|split; [done | lia]].
    replace (Z.to_nat (JS.findIndex_from f l (i + 1) - i))
      with (S (Z.to_nat (JS.findIndex_from f l (i + 1) - (i + 1)))) by lia.
    done.
Qed.

Lemma findIndex_from_present (l : list A) i x :
  0 ≤ i → x ∈ l → f x = true → JS.findIndex_from f l i ≠ -1.
Proof.
  revert i. induction l as [|y l IH]; intros i Hi Hin Hfx; simpl.
  - by apply elem_of_nil in Hin.
  - destruct (f y) eqn:Hfy; [lia|].
    apply elem_of_cons in Hin as [->|Hin]; [congruence|].
    apply IH; [lia | done | done].
Qed.

(** [findIndex] gives [-1] or a position where the array holds an
    element that passes the test. *)
Lemma findIndex_found (l : list A) :
  JS.findIndex f l ≠ -1 →
  ∃ x, JS.at_index l (JS.findIndex f l) = Some x ∧ f x = true
       ∧ 0 ≤ JS.findIndex f l < JS.len l.
Proof.
  intros Hne. unfold JS.findIndex in *.
  destruct (findIndex_from_found l 0 ltac:(lia) Hne) as (x & Hx & Hfx & Hr).
  exists x. unfold JS.at_index.
  destruct (Z.ltb_spec (JS.findIndex_from f l 0) 0); [lia|].
  rewrite Z.sub_0_r in Hx. split; [done|]. split; [done | lia].
Qed.
End FindIndex.

Lemma at_index_Some {A} (l : list A) i x :
  JS.at_index l i = Some x → 0 ≤ i < JS.len l.
Proof.
  unfold JS.at_index, JS.len. destruct (Z.ltb_spec i 0); [done|].
  intros Hx%lookup_lt_Some. lia.
Qed.

Lemma at_index_in_range {A} (l : list A) i :
  0 ≤ i < JS.len l → is_Some (JS.at_index l i).
Proof.
  unfold JS.at_index, JS.len. intros Hi. destruct (Z.ltb_spec i 0); [lia|].
  apply lookup_lt_is_Some. lia.
Qed.

Lemma at_index_None {A} (l : list A) i :
  JS.at_index l i = None ↔ i < 0 ∨ JS.len l ≤ i.
Proof.
  unfold JS.at_index, JS.len. destruct (Z.ltb_spec i 0).
  - split; [by left | done].
  - rewrite lookup_ge_None. lia.
Qed.

(** ** The player across renders *)

Lemma mode_eqb_refl m : mode_eqb m m = true.
Proof. by destruct m. Qed.

(** The element stays while the post does. *)
Lemma sameElement_same_post old data :
  ActiveMediaState.post data = ActiveMediaState.post old →
  MinimizedPlayer.sameElement old data = true.
Proof.
  intros Hpost.
  unfold MinimizedPlayer.sameElement, MinimizedPlayer.isMedia, MinimizedPlayer.isVideo,
    MinimizedPlayer.src.
  rewrite Hpost, Bool.eqb_reflx, String.eqb_refl.
  by destruct (type (ActiveMediaState.post old)).
Qed.

Lemma commit_same_post old data st :
  ActiveMediaState.post data = ActiveMediaState.post old →
  MinimizedPlayer.commit old data st = st.
Proof.
  intros Hpost. unfold MinimizedPlayer.commit. by rewrite sameElement_same_post.
Qed.

Lemma update_same allowed data st : MinimizedPlayer.update allowed data data st = st.
Proof.
  unfold MinimizedPlayer.update. rewrite commit_same_post by done.
  by rewrite Bool.eqb_reflx, String.eqb_refl, mode_eqb_refl; simpl;
    rewrite Bool.eqb_reflx.
Qed.

Lemma dispatch_unchanged allowed handler sys :
  mounted sys → handler (app sys) = app sys → dispatch allowed handler sys = sys.
Proof.
  destruct sys as [s pl]. unfold mounted, dispatch. simpl. intros Hm ->.
  destruct (activeMedia s), pl; simpl; try done. by rewrite update_same.
Qed.

Lemma absent_post_noop_both (post : Post) (s : AppState) :
  (∀ p, p ∈ filtered s → _id p ≠ _id post) →
  MockApp.handleCardClick post s = s ∧ ApiApp.handleCardClick post s = s.
Proof.
  intros Habsent.
  assert (JS.findIndex (λ p, String.eqb (_id p) (_id post)) (filtered s) = -1) as Hidx.
  { apply findIndex_from_absent. intros p Hp. apply String.eqb_neq. by apply Habsent. }
  unfold MockApp.handleCardClick, ApiApp.handleCardClick. by rewrite Hidx.
Qed.

(** C10. A card click on a post whose identifier is not in the filtered
    list changes nothing: in both variants the handler returns the state
    as it was, no active media or modal is made or replaced, and the
    player keeps its state. *)
Theorem cardClick_absent_post_is_noop (post : Post) (s : AppState) :
  (∀ p, p ∈ filtered s → _id p ≠ _id post) →
  MockApp.handleCardClick post s = s
  ∧ ApiApp.handleCardClick post s = s
  ∧ ∀ allowed sys, app sys = s → mounted sys →
      dispatch allowed (MockApp.handleCardClick post) sys = sys
      ∧ dispatch allowed (ApiApp.handleCardClick post) sys = sys.
Proof.
  intros [Hmock Hapi]%absent_post_noop_both.
  split; [done|]. split; [done|].
  intros allowed sys <- Hm. split; by apply dispatch_unchanged.
Qed.

(** The search for "milk" leaves only the note; a click on the video
    that is still held by a stale card does nothing. *)
Lemma cardClick_absent_post_is_noop_witness :
  let s := setSearchQuery "milk" Sample.loaded in
  MockApp.handleCardClick Sample.clip s = s
  ∧ ApiApp.handleCardClick Sample.clip s = s.
Proof.
  intros s.
  destruct (cardClick_absent_post_is_noop Sample.clip s) as (Hmock & Hapi & _).
  - intros p Hp. vm_compute in Hp.
    apply list_elem_of_singleton in Hp as ->. discriminate.
  - by split.
Defined.

(** ** Display modes *)

Lemma elem_of_activeItems s item dm :
  (item, dm) ∈ activeItems s ↔
  (∃ m, activeMedia s = Some m ∧ item = ActiveMediaState.post m
        ∧ dm = displayMode (ActiveMediaState.mode m))
  ∨ (∃ d, activeModal s = Some d ∧ item = ActiveModalState.post d ∧ dm = FullScreen).
Proof.
  unfold activeItems. rewrite elem_of_app.
  destruct (activeMedia s) as [m|], (activeModal s) as [d|];
    rewrite ?list_elem_of_singleton, ?elem_of_nil; split.
  all: intros [H|H]; try done; simplify_eq; eauto.
  all: destruct H as (? & ? & ? & ?); simplify_eq; eauto.
Qed.

Lemma slots_ok_displayMode s item dm :
  slots_ok s → (item, dm) ∈ activeItems s →
  (dm = Minimized → isMediaPost (type item) = true)
  ∧ (isMediaPost (type item) = false → dm = FullScreen).
Proof.
  intros [Hm Hd] [(m & Hs & -> & ->)|(d & Hs & -> & ->)]%elem_of_activeItems.
  - rewrite (Hm _ Hs). split; [done | discriminate].
  - split; [discriminate | done].
Qed.

Lemma cardClick_present post s :
  (∃ p, p ∈ filtered s ∧ _id p = _id post) →
  JS.findIndex (λ p, String.eqb (_id p) (_id post)) (filtered s) ≠ -1.
Proof.
  intros (p & Hp & Hid). unfold JS.findIndex.
  eapply findIndex_from_present; [lia | exact Hp |]. by apply String.eqb_eq.
Qed.

(** C8. In every reachable state of either variant an item is displayed
    minimized only if it is audio or video, and an item of another kind
    is full screen while it is active; after a card click on such a post
    of the filtered list, minimizing leaves that post full screen; and
    no key or swipe of the modal asks [App] to minimize. *)
Theorem minimized_only_when_playable (s : AppState) :
  MockApp.reachable s ∨ ApiApp.reachable s →
  (∀ item dm, (item, dm) ∈ activeItems s →
     (dm = Minimized → isMediaPost (type item) = true)
     ∧ (isMediaPost (type item) = false → dm = FullScreen))
  ∧ (∀ note s',
       isMediaPost (type note) = false →
       (∃ p, p ∈ filtered s ∧ _id p = _id note) →
       s' = MockApp.handleMinimizeMedia (MockApp.handleCardClick note s)
       ∨ s' = ApiApp.onMinimize (ApiApp.handleCardClick note s) →
       (note, FullScreen) ∈ activeItems s' ∧ (note, Minimized) ∉ activeItems s')
  ∧ (∀ d key swipe,
       activeModal s = Some d →
       Modal.handleKeyDown (ActiveModalState.index d) (JS.len (filtered s)) key
         ≠ Some MinimizeMedia
       ∧ Modal.swipeHandlers (ActiveModalState.index d) (JS.len (filtered s)) swipe
         ≠ Some MinimizeMedia).
Proof.
  intros Hreach.
  assert (slots_ok s) as Hs.
  { destruct Hreach; [by apply mock_reachable_slots_ok | by apply api_reachable_slots_ok]. }
  split; [intros item dm; by apply slots_ok_displayMode|].
  split.
  2:{ intros d key swipe _. unfold Modal.handleKeyDown, Modal.swipeHandlers.
      split; [destruct key | destruct swipe]; by repeat case_match. }
  intros note s' Hkind Hin%cardClick_present Hs'.
  assert (slots_ok s') as Hok.
  { destruct Hs' as [-> | ->]; apply slots_ok_switchMode;
      [by apply slots_ok_mock_handleCardClick | by apply slots_ok_api_handleCardClick]. }
  split.
  - apply elem_of_activeItems. right.
    destruct Hs' as [-> | ->];
      unfold MockApp.handleMinimizeMedia, MockApp.handleCardClick,
        ApiApp.onMinimize, ApiApp.handleCardClick, ApiApp.minimizeIfModal;
      apply Z.eqb_neq in Hin; rewrite Hin, Hkind; simpl.
    + eauto.
    + repeat case_match; simpl; eauto.
  - intros Hmin. apply (slots_ok_displayMode _ _ _ Hok) in Hmin as [Hmin _].
    rewrite Hmin in Hkind; done.
Qed.

(** With the sample catalog loaded: opening the grocery note, then
    minimizing, shows the note full screen. *)
Lemma minimized_only_when_playable_witness :
  let s' := MockApp.handleMinimizeMedia (MockApp.handleCardClick Sample.memo Sample.loaded) in
  (Sample.memo, FullScreen) ∈ activeItems s' ∧ (Sample.memo, Minimized) ∉ activeItems s'.
Proof.
  intros s'.
  destruct (minimized_only_when_playable Sample.loaded) as (_ & Hnote & _).
  - left. apply (MockApp.reachable_step (PostsLoaded Sample.catalog)), MockApp.reachable_initial.
  - apply (Hnote Sample.memo s'); [reflexivity | | by left].
    exists Sample.memo. split; [|reflexivity].
    vm_compute. apply list_elem_of_In. simpl. tauto.
Defined.

(** ** What the handlers write *)

Lemma mock_showAt_Returned i s s' :
  MockApp.showAt i s = Returned s' →
  ∃ p, JS.at_index (filtered s) i = Some p
       ∧ s' = if isMediaPost (type p) then showMedia p i 0 s else showModal p i s.
Proof.
  unfold MockApp.showAt. destruct (JS.at_index (filtered s) i) as [p|]; [|done].
  intros Hret. exists p. split; [done|].
  destruct (isMediaPost (type p)); by injection Hret as <-.
Qed.

Lemma mock_showAt_in_range i s p :
  JS.at_index (filtered s) i = Some p →
  MockApp.showAt i s
  = Returned (if isMediaPost (type p) then showMedia p i 0 s else showModal p i s).
Proof. unfold MockApp.showAt. intros ->. by destruct (isMediaPost (type p)). Qed.

Lemma mock_handleNext_Returned s s' :
  MockApp.handleNext s = Returned s' →
  s' = s
  ∨ ∃ i p, MockApp.currentIndex s = Some i
           ∧ JS.at_index (filtered s) (i + 1) = Some p
           ∧ s' = if isMediaPost (type p) then showMedia p (i + 1) 0 s
                  else showModal p (i + 1) s.
Proof.
  unfold MockApp.handleNext. destruct (MockApp.currentIndex s) as [i|]; [|left; congruence].
  destruct (i >=? _); [left; congruence|].
  intros (p & Hp & ->)%mock_showAt_Returned. right. by exists i, p.
Qed.

Lemma mock_handlePrev_Returned s s' :
  MockApp.handlePrev s = Returned s' →
  s' = s
  ∨ ∃ i p, MockApp.currentIndex s = Some i
           ∧ JS.at_index (filtered s) (i - 1) = Some p
           ∧ s' = if isMediaPost (type p) then showMedia p (i - 1) 0 s
                  else showModal p (i - 1) s.
Proof.
  unfold MockApp.handlePrev. destruct (MockApp.currentIndex s) as [i|]; [|left; congruence].
  destruct (i <=? 0); [left; congruence|].
  intros (p & Hp & ->)%mock_showAt_Returned. right. by exists i, p.
Qed.

Lemma api_handleNavigate_Returned dir s s' :
  ApiApp.handleNavigate dir s = Returned s' →
  s' = s
  ∨ ∃ i p, ApiApp.currentItem s = Some i
           ∧ JS.at_index (filtered s) (i + offset dir) = Some p
           ∧ s' = if isMediaPost (type p) then showMedia p (i + offset dir) 0 s
                  else ApiApp.minimizeIfModal (showModal p (i + offset dir) s).
Proof.
  unfold ApiApp.handleNavigate. destruct (ApiApp.currentItem s) as [i|]; [|left; congruence].
  replace (match dir with ApiApp.next => i + 1 | ApiApp.prev => i - 1 end)
    with (i + offset dir) by (destruct dir; simpl; lia).
  destruct (_ || _); [left; congruence|].
  destruct (JS.at_index _ _) as [p|] eqn:Hp; [|done].
  intros Hret. right. exists i, p. split; [done|]. split; [done|].
  destruct (isMediaPost (type p)); by injection Hret as <-.
Qed.

(** The remote-API [handleNavigate] guards the position it reads: it
    never raises. *)
Lemma api_handleNavigate_never_throws dir s : ApiApp.handleNavigate dir s ≠ Thrown.
Proof.
  unfold ApiApp.handleNavigate. destruct (ApiApp.currentItem s) as [i|]; [|done].
  set (j := match dir with ApiApp.next => i + 1 | ApiApp.prev => i - 1 end).
  destruct (Z.ltb_spec j 0); simpl; [done|].
  destruct (Z.geb_spec j (JS.len (filtered s))); [done|].
  destruct (at_index_in_range (filtered s) j) as [p ->]; [lia|].
  by destruct (isMediaPost (type p)).
Qed.

(** ** How many items are active *)

(** The states where a card click on audio or video leads. *)
Lemma cardClick_media_activeItems (post : Post) (s s' : AppState) :
  isMediaPost (type post) = true →
  (∃ p, p ∈ filtered s ∧ _id p = _id post) →
  s' = MockApp.handleCardClick post s ∨ s' = ApiApp.handleCardClick post s →
  ∃ shown, activeItems s' = [(shown, FullScreen)] ∧ _id shown = _id post.
Proof.
  intros Hkind Hin%cardClick_present%Z.eqb_neq Hs'.
  assert (s' = MockApp.handleCardClick post s) as ->.
  { destruct Hs' as [-> | ->]; [done|].
    unfold MockApp.handleCardClick, ApiApp.handleCardClick. by rewrite Hin, Hkind. }
  unfold MockApp.handleCardClick. rewrite Hin, Hkind.
  destruct (activeMedia s) as [prev|] eqn:Hprev; [|by exists post].
  destruct (String.eqb _ _ && _) eqn:Hsame; [|by exists post].
  apply andb_true_iff in Hsame as [Hid%String.eqb_eq _].
  exists (ActiveMediaState.post prev). by unfold activeItems.
Qed.

Lemma showMedia_activeItems p i t s : activeItems (showMedia p i t s) = [(p, FullScreen)].
Proof. done. Qed.

Lemma minimizeIfModal_post s :
  ActiveMediaState.post <$> activeMedia (ApiApp.minimizeIfModal s)
  = ActiveMediaState.post <$> activeMedia s.
Proof.
  unfold ApiApp.minimizeIfModal.
  destruct (activeMedia s) as [prev|] eqn:E; [|by rewrite E].
  destruct (mode_eqb _ _); simpl; by rewrite ?E.
Qed.

Lemma minimizeIfModal_activeModal s :
  activeModal (ApiApp.minimizeIfModal s) = activeModal s.
Proof. unfold ApiApp.minimizeIfModal. by repeat case_match. Qed.

(** The claim C2 as the specification has it fails: after the catalog is
    loaded, a click on the song and one step to the next post, which is a
    note, both variants hold two active items. *)
Lemma at_most_one_active_item_fails :
  ¬ (∀ s, MockApp.reachable s → (length (activeItems s) ≤ 1)%nat)
  ∧ ¬ (∀ s, ApiApp.reachable s → (length (activeItems s) ≤ 1)%nat).
Proof.
  split; intros Hone.
  - assert (MockApp.reachable
              (MockApp.step NextItem
                 (MockApp.step (CardClick Sample.song) Sample.loaded))) as Hreach.
    { do 2 apply MockApp.reachable_step.
      apply (MockApp.reachable_step (PostsLoaded Sample.catalog)), MockApp.reachable_initial. }
    apply Hone in Hreach. vm_compute in Hreach. lia.
  - assert (ApiApp.reachable
              (ApiApp.step NextItem
                 (ApiApp.step (CardClick Sample.song) Sample.loaded))) as Hreach.
    { do 2 apply ApiApp.reachable_step.
      apply (ApiApp.reachable_step (PostsLoaded Sample.catalog)), ApiApp.reachable_initial. }
    apply Hone in Hreach. vm_compute in Hreach. lia.
Qed.

Example song_then_next_mock :
  activeItems (MockApp.step NextItem (MockApp.step (CardClick Sample.song) Sample.loaded))
  = [(Sample.song, FullScreen); (Sample.memo, FullScreen)].
Proof. reflexivity. Qed.

Example song_then_next_api :
  activeItems (ApiApp.step NextItem (ApiApp.step (CardClick Sample.song) Sample.loaded))
  = [(Sample.song, Minimized); (Sample.memo, FullScreen)].
Proof. reflexivity. Qed.

(** ** Navigation bounds *)

(** At the last position [handleNext] returns the state as it is, at the
    first one [handlePrev] does, and neither wraps around: the position
    read is the one after, or before, the current one. *)
Lemma mock_navigation_edges (s : AppState) (p : Z) :
  MockApp.currentIndex s = Some p →
  (p = JS.len (filtered s) - 1 → MockApp.handleNext s = Returned s)
  ∧ (p = 0 → MockApp.handlePrev s = Returned s)
  ∧ (JS.len (filtered s) - 1 ≤ p → MockApp.handleNext s = Returned s)
  ∧ (p ≤ 0 → MockApp.handlePrev s = Returned s).
Proof.
  intros Hp. unfold MockApp.handleNext, MockApp.handlePrev. rewrite Hp.
  repeat split; intros Hedge.
  - destruct (Z.geb_spec p (JS.len (filtered s) - 1)); [done | lia].
  - destruct (Z.leb_spec p 0); [done | lia].
  - destruct (Z.geb_spec p (JS.len (filtered s) - 1)); [done | lia].
  - destruct (Z.leb_spec p 0); [done | lia].
Qed.

(** [handlePrev] of the mock-data variant raises exactly when the
    recorded position is more than one past the end of the list, and
    [handleNext] when it is more than one before its start. *)
Lemma mock_handlePrev_Thrown (s : AppState) :
  MockApp.handlePrev s = Thrown
  ↔ ∃ p, MockApp.currentIndex s = Some p ∧ 0 < p ∧ JS.len (filtered s) < p.
Proof.
  unfold MockApp.handlePrev, MockApp.showAt.
  destruct (MockApp.currentIndex s) as [p|]; [|split; [done | by intros (? & ? & _)]].
  destruct (Z.leb_spec p 0).
  - split; [done|]. intros (? & [= <-] & ? & _). lia.
  - destruct (JS.at_index (filtered s) (p - 1)) as [x|] eqn:Hx.
    + apply at_index_Some in Hx. split; [by destruct (isMediaPost _)|].
      intros (? & [= <-] & _ & ?). lia.
    + apply at_index_None in Hx. split; [|done]. intros _. exists p. repeat split; lia.
Qed.

Lemma mock_handleNext_Thrown (s : AppState) :
  MockApp.handleNext s = Thrown
  ↔ ∃ p, MockApp.currentIndex s = Some p ∧ p < -1 ∧ p < JS.len (filtered s) - 1.
Proof.
  unfold MockApp.handleNext, MockApp.showAt.
  destruct (MockApp.currentIndex s) as [p|]; [|split; [done | by intros (? & ? & _)]].
  destruct (Z.geb_spec p (JS.len (filtered s) - 1)).
  - split; [done|]. intros (? & [= <-] & ? & ?). lia.
  - destruct (JS.at_index (filtered s) (p + 1)) as [x|] eqn:Hx.
    + apply at_index_Some in Hx. split; [by destruct (isMediaPost _)|].
      intros (? & [= <-] & ? & _). lia.
    + apply at_index_None in Hx. split; [|done]. intros _. exists p. repeat split; lia.
Qed.

(** C3, at the input where the mock-data variant fails it. The catalog
    is loaded, the last note (position 3) is opened, and the search for
    "milk" then leaves a filtered list of one post: the recorded position
    is out of range. The left arrow key of the modal still calls
    [handlePrev], which reads [filteredPosts[2]], that is [undefined],
    and raises on its [type]; the [handleNavigate] of the remote-API
    variant returns the state unchanged there. *)
Theorem mock_handlePrev_raises_out_of_range :
  let s := MockApp.step (SearchChange "milk")
             (MockApp.step (CardClick Sample.idea) Sample.loaded) in
  MockApp.reachable s
  ∧ MockApp.currentIndex s = Some 3
  ∧ JS.len (filtered s) = 1
  ∧ Modal.handleKeyDown 3 (JS.len (filtered s)) Modal.ArrowLeft = Some PrevItem
  ∧ MockApp.handlePrev s = Thrown
  ∧ ApiApp.handlePrev s = Returned s.
Proof.
  intros s. split; [|by vm_compute].
  do 2 apply MockApp.reachable_step.
  apply (MockApp.reachable_step (PostsLoaded Sample.catalog)), MockApp.reachable_initial.
Qed.

(** One position past the end the same missing bound shows as a move
    back into the list instead of a return without effect. *)
Example mock_handlePrev_moves_from_the_end :
  let s := MockApp.step (SearchChange "milk")
             (MockApp.step (CardClick Sample.song) Sample.loaded) in
  MockApp.currentIndex s = Some 1
  ∧ JS.len (filtered s) = 1
  ∧ activeItems (MockApp.step PrevItem s)
    = [(Sample.song, FullScreen); (Sample.memo, FullScreen)].
Proof. by vm_compute. Qed.

(** ** Next, then back *)

Lemma shown_filtered x i s : filtered (shown x i s) = filtered s.
Proof. unfold shown. by destruct (isMediaPost (type x)). Qed.

Lemma shown_activeItems x i s : (x, FullScreen) ∈ activeItems (shown x i s).
Proof.
  apply elem_of_activeItems. unfold shown.
  destruct (isMediaPost (type x)); simpl; [left | right]; eauto.
Qed.

Lemma mock_handleNext_in_range s p y :
  MockApp.currentIndex s = Some p →
  JS.at_index (filtered s) (p + 1) = Some y →
  MockApp.handleNext s = Returned (shown y (p + 1) s).
Proof.
  intros Hp Hy. unfold MockApp.handleNext. rewrite Hp.
  pose proof (at_index_Some _ _ _ Hy).
  destruct (Z.geb_spec p (JS.len (filtered s) - 1)); [lia|].
  by apply mock_showAt_in_range.
Qed.

Lemma mock_handlePrev_in_range s p x :
  MockApp.currentIndex s = Some p →
  JS.at_index (filtered s) (p - 1) = Some x →
  MockApp.handlePrev s = Returned (shown x (p - 1) s).
Proof.
  intros Hp Hx. unfold MockApp.handlePrev. rewrite Hp.
  pose proof (at_index_Some _ _ _ Hx).
  destruct (Z.leb_spec p 0); [lia|].
  by apply mock_showAt_in_range.
Qed.

(** Step by step the handlers of the mock-data variant do what a round
    trip needs: from position [p] the step forward shows the post at
    [p + 1], and from position [p + 1] the step back shows the post at
    [p], on the same list. *)
Lemma mock_steps_from_their_position (s : AppState) (p : Z) (x y : Post) :
  MockApp.currentIndex s = Some p →
  JS.at_index (filtered s) p = Some x →
  JS.at_index (filtered s) (p + 1) = Some y →
  MockApp.handleNext s = Returned (shown y (p + 1) s)
  ∧ filtered (shown y (p + 1) s) = filtered s
  ∧ (∀ s1, filtered s1 = filtered s →
           MockApp.currentIndex s1 = Some (p + 1) →
           MockApp.handlePrev s1 = Returned (shown x p s1)).
Proof.
  intros Hp Hx Hy. split; [by apply mock_handleNext_in_range|].
  split; [apply shown_filtered|].
  intros s1 Hlist Hp1.
  pose proof (mock_handlePrev_in_range s1 (p + 1) x Hp1) as Hback.
  replace (p + 1 - 1) with p in Hback by lia.
  apply Hback. by rewrite Hlist.
Qed.

Lemma api_shown_currentItem x i s : ApiApp.currentItem (api_shown x i s) = Some i.
Proof.
  unfold api_shown, ApiApp.currentItem, ApiApp.minimizeIfModal.
  destruct (isMediaPost (type x)); simpl; [done|].
  destruct (activeMedia s) as [m|] eqn:Em; simpl; rewrite ?Em; [|done].
  destruct (ActiveMediaState.mode m) eqn:Hmode; simpl; by rewrite ?Em, ?Hmode.
Qed.

Lemma api_shown_filtered x i s : filtered (api_shown x i s) = filtered s.
Proof.
  unfold api_shown, ApiApp.minimizeIfModal.
  destruct (isMediaPost (type x)); simpl; [done|]. by repeat case_match.
Qed.

Lemma api_handleNavigate_in_range dir s p x :
  ApiApp.currentItem s = Some p →
  JS.at_index (filtered s) (p + offset dir) = Some x →
  ApiApp.handleNavigate dir s = Returned (api_shown x (p + offset dir) s).
Proof.
  intros Hp Hx. unfold ApiApp.handleNavigate. rewrite Hp.
  replace (match dir with ApiApp.next => p + 1 | ApiApp.prev => p - 1 end)
    with (p + offset dir) by (destruct dir; simpl; lia).
  pose proof (at_index_Some _ _ _ Hx).
  destruct (Z.ltb_spec (p + offset dir) 0); [lia|].
  destruct (Z.geb_spec (p + offset dir) (JS.len (filtered s))); [lia|].
  simpl. rewrite Hx. unfold api_shown. by destruct (isMediaPost (type x)).
Qed.

Lemma api_round_trip (s : AppState) (p : Z) (x y : Post) :
  ApiApp.currentItem s = Some p →
  JS.at_index (filtered s) p = Some x →
  JS.at_index (filtered s) (p + 1) = Some y →
  ∃ s1 s2, ApiApp.handleNext s = Returned s1
           ∧ ApiApp.handlePrev s1 = Returned s2
           ∧ ApiApp.currentItem s2 = Some p
           ∧ s2 = api_shown x p s1.
Proof.
  intros Hp Hx Hy.
  exists (api_shown y (p + 1) s), (api_shown x p (api_shown y (p + 1) s)).
  split; [by apply (api_handleNavigate_in_range ApiApp.next)|].
  split; [|by rewrite api_shown_currentItem].
  pose proof (api_handleNavigate_in_range ApiApp.prev (api_shown y (p + 1) s)
                (p + 1) x (api_shown_currentItem _ _ _)) as Hback.
  replace (p + 1 + offset ApiApp.prev) with p in Hback by (simpl; lia).
  apply Hback. by rewrite api_shown_filtered.
Qed.

(** C7, at the input where the mock-data variant fails it. The catalog
    is loaded and the song (position 1) is opened full screen. The step
    forward shows the note of position 2 in the modal and returns; the
    filtered list is the same. But the player keeps the song at position
    1, and [handlePrev] starts from [activeMedia?.index ?? activeModal?.index],
    the position of the player: the step back reads position 0 and shows
    the video, not the song of position 1. The remote-API variant
    minimizes the player, starts from the modal, and is back on the song
    at position 1. *)
Theorem mock_next_then_prev_misses_the_start :
  let s := MockApp.step (CardClick Sample.song) Sample.loaded in
  let s1 := MockApp.step NextItem s in
  let s2 := MockApp.step PrevItem s1 in
  let a2 := ApiApp.step PrevItem (ApiApp.step NextItem s) in
  (MockApp.reachable s ∧ ApiApp.reachable s)
  ∧ (MockApp.currentIndex s = Some 1
     ∧ JS.at_index (filtered s) 1 = Some Sample.song
     ∧ JS.at_index (filtered s) 2 = Some Sample.memo
     ∧ JS.len (filtered s) = 4)
  ∧ (MockApp.handleNext s = Returned s1
     ∧ activeItems s1 = [(Sample.song, FullScreen); (Sample.memo, FullScreen)]
     ∧ filtered s1 = filtered s
     ∧ MockApp.currentIndex s1 = Some 1)
  ∧ (MockApp.handlePrev s1 = Returned s2
     ∧ filtered s2 = filtered s
     ∧ MockApp.currentIndex s2 = Some 0
     ∧ activeItems s2 = [(Sample.clip, FullScreen)])
  ∧ (ApiApp.currentItem a2 = Some 1
     ∧ activeItems a2 = [(Sample.song, FullScreen)]).
Proof.
  intros s s1 s2 a2. split; [|by vm_compute].
  split.
  - apply (MockApp.reachable_step (CardClick Sample.song)).
    apply (MockApp.reachable_step (PostsLoaded Sample.catalog)), MockApp.reachable_initial.
  - apply (ApiApp.reachable_step (CardClick Sample.song)).
    apply (ApiApp.reachable_step (PostsLoaded Sample.catalog)), ApiApp.reachable_initial.
Qed.

(** With nothing in the player the mock-data variant has the round
    trip: from the grocery note (position 2) to the next note and back. *)
Example mock_round_trip_between_notes :
  let s := MockApp.handleCardClick Sample.memo Sample.loaded in
  MockApp.handleNext s = Returned (shown Sample.idea 3 s)
  ∧ MockApp.handlePrev (shown Sample.idea 3 s) = Returned s.
Proof. by vm_compute. Qed.

(** ** The two variants side by side *)

(** C9, at the inputs where the variants differ. The handlers of the
    remote-API variant minimize a full-screen player when they show a
    note, a quote or an image, and navigate from the item that covers
    the screen ([activeMedia?.mode === 'modal' ? activeMedia : activeModal]);
    the handlers of the mock-data variant have neither. From the song
    open full screen, a state both variants reach, the step to the next
    post, a note, and the click on the card of that note leave the
    player full screen under the modal in the mock-data variant and
    minimized in the remote-API one. From the note open over the
    minimized song, a state both reach as well, the step forward starts
    from the player in the mock-data variant and shows the same note
    again, and starts from the modal in the remote-API one and shows the
    next note. *)
Theorem mock_handlers_lack_what_the_api_handlers_do :
  let s := MockApp.step (CardClick Sample.song) Sample.loaded in
  let t := MockApp.step (CardClick Sample.memo) (MockApp.step MinimizeMedia s) in
  (MockApp.reachable s ∧ ApiApp.reachable s)
  ∧ (MockApp.reachable t ∧ ApiApp.reachable t)
  ∧ (activeItems s = [(Sample.song, FullScreen)]
     ∧ activeItems (MockApp.step NextItem s)
       = [(Sample.song, FullScreen); (Sample.memo, FullScreen)]
     ∧ activeItems (ApiApp.step NextItem s)
       = [(Sample.song, Minimized); (Sample.memo, FullScreen)]
     ∧ activeItems (MockApp.step (CardClick Sample.memo) s)
       = [(Sample.song, FullScreen); (Sample.memo, FullScreen)]
     ∧ activeItems (ApiApp.step (CardClick Sample.memo) s)
       = [(Sample.song, Minimized); (Sample.memo, FullScreen)])
  ∧ (activeItems t = [(Sample.song, Minimized); (Sample.memo, FullScreen)]
     ∧ activeItems (MockApp.step NextItem t)
       = [(Sample.song, Minimized); (Sample.memo, FullScreen)]
     ∧ activeItems (ApiApp.step NextItem t)
       = [(Sample.song, Minimized); (Sample.idea, FullScreen)]).
Proof.
  intros s t.
  assert (MockApp.reachable s ∧ ApiApp.reachable s) as Hs.
  { split.
    - apply (MockApp.reachable_step (CardClick Sample.song)).
      apply (MockApp.reachable_step (PostsLoaded Sample.catalog)),
        MockApp.reachable_initial.
    - apply (ApiApp.reachable_step (CardClick Sample.song)).
      apply (ApiApp.reachable_step (PostsLoaded Sample.catalog)),
        ApiApp.reachable_initial. }
  split; [exact Hs|]. split; [|by vm_compute].
  destruct Hs as [Hmock Hapi]. split.
  - by do 2 apply MockApp.reachable_step.
  - apply (ApiApp.reachable_step (CardClick Sample.memo)
             (ApiApp.step MinimizeMedia s)).
    by apply ApiApp.reachable_step.
Qed.

(** With the song minimized and no modal, the mock-data variant steps on
    from the position of the player; the remote-API one has no current
    item and stays. *)
Example minimized_song_next_differs :
  let s := MockApp.handleMinimizeMedia (MockApp.handleCardClick Sample.song Sample.loaded) in
  activeItems (MockApp.step NextItem s) = [(Sample.song, Minimized); (Sample.memo, FullScreen)]
  ∧ ApiApp.step NextItem s = s.
Proof. by vm_compute. Qed.

Lemma minimizeIfModal_no_media s : activeMedia s = None → ApiApp.minimizeIfModal s = s.
Proof. unfold ApiApp.minimizeIfModal. by intros ->. Qed.

Lemma api_shown_no_media x i s : activeMedia s = None → api_shown x i s = shown x i s.
Proof.
  intros Hnone. unfold api_shown, shown.
  destruct (isMediaPost (type x)); [done|]. by apply minimizeIfModal_no_media.
Qed.

(** Where no player is involved the handlers are the same. The
    variants agree on a card click on an audio or video post, on a card
    click on a post that is not in the filtered list, and on every card
    click while no media is active; and while no media is active and the
    position recorded by the modal lies in the filtered list, their
    [handleNext] and [handlePrev] agree as well. *)
Lemma variants_agree_without_a_player (s : AppState) :
  (∀ post,
     isMediaPost (type post) = true
     ∨ activeMedia s = None
     ∨ (∀ p, p ∈ filtered s → _id p ≠ _id post) →
     MockApp.handleCardClick post s = ApiApp.handleCardClick post s)
  ∧ (activeMedia s = None →
     (∀ d, activeModal s = Some d →
           0 ≤ ActiveModalState.index d < JS.len (filtered s)) →
     MockApp.handleNext s = ApiApp.handleNext s
     ∧ MockApp.handlePrev s = ApiApp.handlePrev s).
Proof.
  split.
  - intros post [Hkind|[Hnone|Habsent]].
    + unfold MockApp.handleCardClick, ApiApp.handleCardClick. by rewrite Hkind.
    + unfold MockApp.handleCardClick, ApiApp.handleCardClick.
      destruct (_ =? -1); [done|]. destruct (isMediaPost (type post)); [done|].
      by rewrite minimizeIfModal_no_media.
    + by destruct (absent_post_noop_both post s Habsent) as [-> ->].
  - intros Hnone Hrange.
    assert (ApiApp.currentItem s = MockApp.currentIndex s) as Hcur.
    { unfold ApiApp.currentItem, MockApp.currentIndex. rewrite Hnone.
      by destruct (activeModal s). }
    destruct (MockApp.currentIndex s) as [i|] eqn:Hi.
    2:{ unfold MockApp.handleNext, MockApp.handlePrev, ApiApp.handleNext,
          ApiApp.handlePrev, ApiApp.handleNavigate. by rewrite Hcur, Hi. }
    assert (0 ≤ i < JS.len (filtered s)) as Hin.
    { unfold MockApp.currentIndex in Hi. rewrite Hnone in Hi.
      destruct (activeModal s) as [d|]; [|done]. injection Hi as <-. by apply Hrange. }
    split.
    + destruct (Z.eq_dec i (JS.len (filtered s) - 1)) as [Hlast|Hlast].
      * rewrite (proj1 (mock_navigation_edges s i Hi) Hlast).
        unfold ApiApp.handleNext, ApiApp.handleNavigate. rewrite Hcur.
        destruct (Z.geb_spec (i + 1) (JS.len (filtered s))); [|lia].
        by rewrite orb_true_r.
      * destruct (at_index_in_range (filtered s) (i + 1)) as [y Hy]; [lia|].
        rewrite (mock_handleNext_in_range s i y Hi Hy).
        unfold ApiApp.handleNext.
        rewrite (api_handleNavigate_in_range ApiApp.next s i y Hcur Hy).
        simpl. by rewrite api_shown_no_media.
    + destruct (Z.eq_dec i 0) as [Hfirst|Hfirst].
      * rewrite (proj1 (proj2 (mock_navigation_edges s i Hi)) Hfirst).
        unfold ApiApp.handlePrev, ApiApp.handleNavigate. rewrite Hcur.
        by destruct (Z.ltb_spec (i - 1) 0); [|lia].
      * destruct (at_index_in_range (filtered s) (i - 1)) as [x Hx]; [lia|].
        rewrite (mock_handlePrev_in_range s i x Hi Hx).
        unfold ApiApp.handlePrev.
        rewrite (api_handleNavigate_in_range ApiApp.prev s i x Hcur Hx).
        simpl. by rewrite api_shown_no_media.
Qed.

(** ** The transport state across renders *)

Module PlayerFacts.
Import MinimizedPlayer.

Lemma keptPlayback_refl st : keptPlayback st st.
Proof. by repeat split. Qed.

Lemma keptPlayback_play allowed st : keptPlayback st (play allowed st).
Proof. unfold play. destruct allowed; [|apply keptPlayback_refl]. by repeat split. Qed.

Lemma keptPlayback_modeEffect allowed data st :
  keptPlayback st (modeEffect allowed data st).
Proof.
  unfold modeEffect. destruct (_ && _); [apply keptPlayback_play | apply keptPlayback_refl].
Qed.

Lemma isMedia_isMediaPost data :
  isMedia data = isMediaPost (type (ActiveMediaState.post data)).
Proof. unfold isMedia. by destruct (type _). Qed.

(** A render in which only the mode changed: the mode effect alone
    runs, and it does nothing when the new mode is minimized. *)
Lemma update_with_mode allowed data m st :
  keptPlayback st (update allowed data (ActiveMediaState.with_mode data m) st)
  ∧ (m = minimized →
     update allowed data (ActiveMediaState.with_mode data m) st = st).
Proof.
  unfold update. rewrite commit_same_post by done.
  replace (isMedia (ActiveMediaState.with_mode data m)) with (isMedia data) by done.
  rewrite Bool.eqb_reflx. simpl. rewrite String.eqb_refl. simpl.
  destruct (negb (mode_eqb (ActiveMediaState.mode data) m)); cbn [orb].
  - pose proof (keptPlayback_modeEffect allowed (ActiveMediaState.with_mode data m) st)
      as Hkept.
    rewrite (proj1 Hkept), Bool.eqb_reflx. split; [done|].
    intros ->. unfold modeEffect. simpl. by rewrite andb_false_r.
  - by rewrite Bool.eqb_reflx.
Qed.

Lemma isPlaying_play allowed st : isPlaying (play allowed st) = isPlaying st.
Proof. unfold play. by destruct allowed. Qed.

Lemma currentTime_play allowed st : currentTime (play allowed st) = currentTime st.
Proof. unfold play. by destruct allowed. Qed.

Lemma resumeAt_play allowed st : resumeAt (play allowed st) = resumeAt st.
Proof. unfold play. by destruct allowed. Qed.

(** The cells after the effects that follow a change of [isPlaying]. *)
Lemma cells_after_playback allowed data st :
  let st' := modeEffect allowed data (playbackEffect allowed data st) in
  isPlaying st' = isPlaying st ∧ currentTime st' = currentTime st
  ∧ resumeAt st' = resumeAt st.
Proof.
  intros st'. subst st'.
  destruct (keptPlayback_modeEffect allowed data (playbackEffect allowed data st))
    as (-> & -> & _ & -> & _).
  unfold playbackEffect. destruct (negb _); [done|].
  destruct (isPlaying st) eqn:Hp;
    by rewrite ?isPlaying_play, ?currentTime_play, ?resumeAt_play.
Qed.

(** A render with another item: the setup effect resets the cells. *)
Lemma update_new_item allowed old data st :
  _id (ActiveMediaState.post old) ≠ _id (ActiveMediaState.post data) →
  isMedia data = true →
  let st' := update allowed old data st in
  isPlaying st' = true ∧ currentTime st' = 0
  ∧ resumeAt st' = ActiveMediaState.currentTime data.
Proof.
  intros Hid%String.eqb_neq Hmedia st'. subst st'. unfold update.
  rewrite Hid. simpl.
  match goal with |- context [setupEffect data ?x] => generalize x end.
  intros st2. unfold setupEffect. rewrite Hmedia. simpl.
  destruct (isPlaying st); [done|].
  match goal with |- context [modeEffect allowed data (playbackEffect allowed data ?x)] =>
    by destruct (cells_after_playback allowed data x) as (-> & -> & ->) end.
Qed.

(** A render with another item on another element (another tag or
    another [src]), shown full screen. The cells are reset; the element
    is new and at 0, and [play()] is called on it only by an effect that
    runs: the mode effect when the mode changed, the play and pause
    effect when [isPlaying] changed. *)
Lemma update_new_element allowed old data st :
  isMedia old = true →
  isMedia data = true →
  _id (ActiveMediaState.post old) ≠ _id (ActiveMediaState.post data) →
  sameElement old data = false →
  ActiveMediaState.mode data = modal →
  update allowed old data st
  = {| isPlaying := true; duration := Some 0; currentTime := 0;
       media :=
         {| paused := negb allowed
                      || (isPlaying st && mode_eqb (ActiveMediaState.mode old) modal);
            mediaTime := 0; mediaDuration := None |};
       resumeAt := ActiveMediaState.currentTime data |}.
Proof.
  intros Hold Hdata Hid%String.eqb_neq Hnew Hmode.
  unfold update, commit. rewrite Hold, Hdata, Hid, Hnew, Hmode. simpl.
  unfold setupEffect, modeEffect, playbackEffect, play, setMedia, freshElement.
  rewrite Hdata, Hmode. simpl.
  destruct st as [playing dur time el resume].
  by destruct playing, allowed, (ActiveMediaState.mode old).
Qed.

Lemma mediaTime_play allowed st :
  mediaTime (media (play allowed st)) = mediaTime (media st).
Proof. unfold play. by destruct allowed. Qed.

Lemma mediaTime_playbackEffect allowed data st :
  mediaTime (media (playbackEffect allowed data st)) = mediaTime (media st).
Proof.
  unfold playbackEffect, pause. destruct (negb _); [done|].
  destruct (isPlaying st); [apply mediaTime_play | done].
Qed.

Lemma mediaTime_modeEffect allowed data st :
  mediaTime (media (modeEffect allowed data st)) = mediaTime (media st).
Proof. unfold modeEffect. destruct (_ && _); [apply mediaTime_play | done]. Qed.

Lemma mediaTime_setupEffect data st :
  mediaTime (media (setupEffect data st)) = mediaTime (media st).
Proof. unfold setupEffect. by destruct (negb _). Qed.

(** No effect moves the element: after a render it is where it was,
    or at 0 when it is new. *)
Lemma mediaTime_update allowed old data st :
  mediaTime (media (update allowed old data st))
  = if sameElement old data then mediaTime (media st) else 0.
Proof.
  unfold update.
  assert (mediaTime (media (commit old data st))
          = if sameElement old data then mediaTime (media st) else 0) as Hcommit.
  { unfold commit. by destruct (sameElement old data). }
  repeat first
    [ rewrite mediaTime_modeEffect | rewrite mediaTime_playbackEffect
    | rewrite mediaTime_setupEffect | case_match ]; done.
Qed.

(** Where the listener of [loadedmetadata] leaves the element. *)
Lemma mediaTime_handleLoadedMetadata d st start :
  resumeAt st = Some start →
  mediaTime (media (handleLoadedMetadata d st))
  = if start =? 0 then mediaTime (media st) else start.
Proof. intros Hresume. unfold handleLoadedMetadata. by rewrite Hresume. Qed.

Lemma mount_element allowed data :
  isMedia data = true →
  media (mount allowed data)
  = {| paused := negb allowed; mediaTime := 0; mediaDuration := None |}.
Proof.
  intros Hmedia. unfold mount, setupEffect, modeEffect, playbackEffect, play.
  rewrite Hmedia. simpl.
  by destruct allowed, (mode_eqb (ActiveMediaState.mode data) modal).
Qed.

Lemma mount_cells allowed data :
  isMedia data = true →
  isPlaying (mount allowed data) = true ∧ currentTime (mount allowed data) = 0
  ∧ resumeAt (mount allowed data) = ActiveMediaState.currentTime data.
Proof. intros Hmedia. unfold mount, setupEffect. by rewrite Hmedia. Qed.

End PlayerFacts.

Lemma or_zero_default (x : option Z) : or_zero x = default 0 x.
Proof.
  destruct x as [t|]; simpl; [|done]. destruct (Z.eqb_spec t 0); [by subst | done].
Qed.

(** ** Minimize and restore *)

(** C1. Let a media be active, the player in any state, and the host
    either way about playback. Minimizing changes the mode of that
    media and nothing else: the player is exactly as before, so playback
    is neither paused nor reset. Restoring then gives the same media at
    the same position in the mode [modal], and the transport state (where
    playback started, whether it is playing, the elapsed time) is the one
    from before minimizing; the effect that runs on the way back can only
    resume the element. *)
Theorem minimize_then_restore_preserves_transport
    (allowed : bool) (s : AppState) (m : ActiveMediaState.t)
    (st : MinimizedPlayer.State) :
  activeMedia s = Some m →
  let sys := {| app := s; player := Some st |} in
  let sys1 := dispatch allowed MockApp.handleMinimizeMedia sys in
  let sys2 := dispatch allowed MockApp.handleRestoreMedia sys1 in
  app sys1 = setActiveMedia (Some (ActiveMediaState.with_mode m minimized)) s
  ∧ player sys1 = Some st
  ∧ transport sys1 = transport sys
  ∧ app sys2 = setActiveMedia (Some (ActiveMediaState.with_mode m modal)) s
  ∧ (∃ st2, player sys2 = Some st2 ∧ keptPlayback st st2)
  ∧ transport sys2 = transport sys.
Proof.
  intros Hm.
  pose proof (PlayerFacts.update_with_mode allowed m minimized st) as [_ Hsame].
  pose proof (PlayerFacts.update_with_mode allowed
                (ActiveMediaState.with_mode m minimized) modal st) as [Hkept _].
  cbv zeta.
  unfold dispatch, MockApp.handleMinimizeMedia, MockApp.handleRestoreMedia,
    switchMode, transport.
  simpl. rewrite Hm. simpl. rewrite (Hsame eq_refl). simpl in *.
  repeat split; try done.
  - by eexists.
  - by destruct Hkept as (-> & -> & _).
Qed.

(** The song, opened at second 12 and paused by the user at second 40,
    is minimized and restored: it is still paused at second 40. *)
Lemma minimize_then_restore_preserves_transport_witness :
  let s := MockApp.handleCardClick Sample.song Sample.loaded in
  let st :=
    {| MinimizedPlayer.isPlaying := false; MinimizedPlayer.duration := Some 180;
       MinimizedPlayer.currentTime := 40;
       MinimizedPlayer.media :=
         {| MinimizedPlayer.paused := true; MinimizedPlayer.mediaTime := 40;
            MinimizedPlayer.mediaDuration := Some 180 |};
       MinimizedPlayer.resumeAt := Some 12 |} in
  let sys := {| app := s; player := Some st |} in
  transport (dispatch true MockApp.handleRestoreMedia
               (dispatch true MockApp.handleMinimizeMedia sys))
  = Some {| startAt := Some 12; playing := false; elapsed := 40 |}.
Proof.
  intros s st sys.
  destruct (minimize_then_restore_preserves_transport true s
              {| ActiveMediaState.post := Sample.song; ActiveMediaState.index := 1;
                 ActiveMediaState.mode := modal;
                 ActiveMediaState.currentTime := Some 12 |} st)
    as (_ & _ & _ & _ & _ & Htransport); [reflexivity|].
  exact Htransport.
Defined.

(** The callbacks of the remote-API variant are the same functions. *)
Lemma api_minimize_restore_same :
  ApiApp.onMinimize = MockApp.handleMinimizeMedia
  ∧ ApiApp.onRestore = MockApp.handleRestoreMedia.
Proof. done. Qed.

(** ** Navigation restarts playback *)

Lemma navigation_to_media current handler d s i p :
  navigation current handler d →
  current s = Some i →
  JS.at_index (filtered s) (i + d) = Some p →
  isMediaPost (type p) = true →
  handler s = Returned (showMedia p (i + d) 0 s).
Proof.
  intros Hnav Hi Hp Hkind. destruct Hnav.
  - rewrite (mock_handleNext_in_range s i p Hi Hp). unfold shown. by rewrite Hkind.
  - rewrite (mock_handlePrev_in_range s i p Hi Hp). unfold shown. by rewrite Hkind.
  - unfold ApiApp.handleNext.
    rewrite (api_handleNavigate_in_range ApiApp.next s i p Hi Hp).
    unfold api_shown. by rewrite Hkind.
  - unfold ApiApp.handlePrev.
    rewrite (api_handleNavigate_in_range ApiApp.prev s i p Hi Hp).
    unfold api_shown. by rewrite Hkind.
Qed.

(** C5, where the code fails it. Let a media [m] be active, the player
    in any state. When the position next to the current one, in either
    direction and in either variant, holds an audio or video post [p]
    other than the active one, on another element (another tag or another
    [src]), the navigation handler returns with [p] in the player, full
    screen, at that position, to be played from 0, with no modal; after
    the render the cells of the player say playing, at an elapsed time
    of 0, and the new element is at 0. But the element is started only
    when the host allows it and the player was paused or minimized
    before: out of a player that was playing full screen no effect runs
    that calls [play()], and the new element stays paused under a cell
    that says playing. *)
Theorem navigation_leaves_a_playing_player_paused
    (current : AppState → option Z) (handler : AppState → outcome) (d : Z)
    (allowed : bool) (sys : System) (m : ActiveMediaState.t)
    (st : MinimizedPlayer.State) (i : Z) (p : Post) :
  navigation current handler d →
  activeMedia (app sys) = Some m →
  isMediaPost (type (ActiveMediaState.post m)) = true →
  player sys = Some st →
  current (app sys) = Some i →
  JS.at_index (filtered (app sys)) (i + d) = Some p →
  isMediaPost (type p) = true →
  _id p ≠ _id (ActiveMediaState.post m) →
  MinimizedPlayer.sameElement m
    {| ActiveMediaState.post := p; ActiveMediaState.index := i + d;
       ActiveMediaState.mode := modal; ActiveMediaState.currentTime := Some 0 |}
  = false →
  let sys' := dispatch allowed (λ s, settle s (handler s)) sys in
  handler (app sys) = Returned (showMedia p (i + d) 0 (app sys))
  ∧ activeItems (app sys') = [(p, FullScreen)]
  ∧ transport sys' = Some {| startAt := Some 0; playing := true; elapsed := 0 |}
  ∧ ∃ st', player sys' = Some st'
           ∧ MinimizedPlayer.isPlaying st' = true
           ∧ MinimizedPlayer.mediaTime (MinimizedPlayer.media st') = 0
           ∧ MinimizedPlayer.paused (MinimizedPlayer.media st')
             = negb allowed
               || (MinimizedPlayer.isPlaying st
                   && mode_eqb (ActiveMediaState.mode m) modal).
Proof.
  intros Hnav Hm Hold Hst Hi Hp Hkind Hnew Helement sys'.
  pose proof (navigation_to_media _ _ _ _ _ _ Hnav Hi Hp Hkind) as Hret.
  split; [done|]. subst sys'. unfold dispatch, transport. rewrite Hret, Hm, Hst. simpl.
  split; [done|].
  rewrite (PlayerFacts.update_new_element allowed m _ st); simpl;
    rewrite ?PlayerFacts.isMedia_isMediaPost; try done; try congruence.
  split; [done|]. by eexists.
Qed.

(** The video is opened on the loaded catalog and plays, full screen,
    the host allowing playback; the step to the next post, the song,
    leaves the player saying playing at 0 and the element of the song
    paused. *)
Lemma navigation_leaves_a_playing_player_paused_witness :
  let sys :=
    dispatch true (MockApp.handleCardClick Sample.clip)
      {| app := Sample.loaded; player := None |} in
  let sys' := dispatch true (λ s, settle s (MockApp.handleNext s)) sys in
  MockApp.reachable (app sys)
  ∧ (∃ st, player sys = Some st
           ∧ MinimizedPlayer.isPlaying st = true
           ∧ MinimizedPlayer.paused (MinimizedPlayer.media st) = false)
  ∧ activeItems (app sys') = [(Sample.song, FullScreen)]
  ∧ transport sys' = Some {| startAt := Some 0; playing := true; elapsed := 0 |}
  ∧ ∃ st', player sys' = Some st'
           ∧ MinimizedPlayer.paused (MinimizedPlayer.media st') = true.
Proof.
  intros sys sys'.
  split.
  { apply (MockApp.reachable_step (CardClick Sample.clip)).
    apply (MockApp.reachable_step (PostsLoaded Sample.catalog)), MockApp.reachable_initial. }
  split; [by eexists|].
  destruct (navigation_leaves_a_playing_player_paused
              MockApp.currentIndex MockApp.handleNext 1 true sys
              {| ActiveMediaState.post := Sample.clip; ActiveMediaState.index := 0;
                 ActiveMediaState.mode := modal;
                 ActiveMediaState.currentTime := Some 0 |}
              (MinimizedPlayer.mount true
                 {| ActiveMediaState.post := Sample.clip; ActiveMediaState.index := 0;
                    ActiveMediaState.mode := modal;
                    ActiveMediaState.currentTime := Some 0 |})
              0 Sample.song)
    as (_ & Hitems & Htransport & st' & Hst' & _ & _ & Hpaused);
    [constructor | reflexivity | reflexivity | reflexivity | reflexivity | reflexivity
    | reflexivity | discriminate | reflexivity |].
  split; [exact Hitems|]. split; [exact Htransport|].
  exists st'. split; [exact Hst' | exact Hpaused].
Defined.

(** Out of a paused player the same step does start the song. *)
Example navigation_from_a_paused_player_starts_the_next :
  let s := MockApp.handleCardClick Sample.clip Sample.loaded in
  let st :=
    {| MinimizedPlayer.isPlaying := false; MinimizedPlayer.duration := Some 90;
       MinimizedPlayer.currentTime := 30;
       MinimizedPlayer.media :=
         {| MinimizedPlayer.paused := true; MinimizedPlayer.mediaTime := 30;
            MinimizedPlayer.mediaDuration := Some 90 |};
       MinimizedPlayer.resumeAt := Some 0 |} in
  MinimizedPlayer.media
    <$> player (dispatch true (λ s, settle s (MockApp.handleNext s))
                  {| app := s; player := Some st |})
  = Some {| MinimizedPlayer.paused := false; MinimizedPlayer.mediaTime := 0;
            MinimizedPlayer.mediaDuration := None |}.
Proof. reflexivity. Qed.

(** ** One item of each kind, write by write *)

Ltac writes_cases :=
  unfold writeAll;
  repeat case_match; simpl in *; unfold switchMode; simplify_eq/=; try done;
  repeat match goal with
         | H : activeMedia _ = _ |- _ => rewrite H
         end; simpl; try done; try congruence.

(** Each handler leaves the state its writes leave, made in order. *)
Lemma mock_step_writes e s : MockApp.step e s = writeAll (MockWrites.writes e s) s.
Proof.
  destruct e; simpl; try done.
  - unfold MockApp.handleCardClick, MockWrites.handleCardClick. writes_cases.
  - unfold MockApp.handleNext, MockWrites.handleNext, MockApp.showAt, MockWrites.showAt.
    writes_cases.
  - unfold MockApp.handlePrev, MockWrites.handlePrev, MockApp.showAt, MockWrites.showAt.
    writes_cases.
Qed.

Lemma api_step_writes e s : ApiApp.step e s = writeAll (ApiWrites.writes e s) s.
Proof.
  destruct e; simpl; try done.
  - unfold ApiApp.handleCardClick, ApiWrites.handleCardClick,
      ApiApp.minimizeIfModal, ApiWrites.minimizeIfModal. writes_cases.
  - unfold ApiApp.handleNext, ApiApp.handleNavigate, ApiWrites.handleNavigate,
      ApiApp.minimizeIfModal, ApiWrites.minimizeIfModal. writes_cases.
  - unfold ApiApp.handlePrev, ApiApp.handleNavigate, ApiWrites.handleNavigate,
      ApiApp.minimizeIfModal, ApiWrites.minimizeIfModal. writes_cases.
Qed.

Lemma slots_ok_write w s : slots_ok s → wellKinded w → slots_ok (write w s).
Proof.
  intros [Hm Hd] Hw. destruct w as [| |[m|]|mode|[d|]|]; simpl; unfold switchMode;
    split; simpl; intros x Hx; simplify_eq/=; eauto.
  destruct (activeMedia s) as [prev|] eqn:Hprev; simplify_eq/=. by apply Hm.
Qed.

Lemma slots_ok_writeAll ws s :
  slots_ok s → Forall wellKinded ws → ∀ k, slots_ok (writeAll (take k ws) s).
Proof.
  intros Hs Hws. revert s Hs. induction Hws as [|w ws Hw _ IH]; intros s Hs k.
  - by rewrite take_nil.
  - destruct k as [|k]; [done|]. simpl. apply IH. by apply slots_ok_write.
Qed.

Lemma mock_writes_wellKinded e s : Forall wellKinded (MockWrites.writes e s).
Proof.
  destruct e; simpl; repeat constructor.
  - unfold MockWrites.handleCardClick. repeat case_match; repeat constructor; done.
  - unfold MockWrites.handleNext, MockWrites.showAt.
    repeat case_match; repeat constructor; done.
  - unfold MockWrites.handlePrev, MockWrites.showAt.
    repeat case_match; repeat constructor; done.
Qed.

Lemma api_writes_wellKinded e s : Forall wellKinded (ApiWrites.writes e s).
Proof.
  destruct e; simpl; repeat constructor.
  - unfold ApiWrites.handleCardClick, ApiWrites.minimizeIfModal.
    repeat case_match; repeat constructor; done.
  - unfold ApiWrites.handleNavigate, ApiWrites.minimizeIfModal.
    repeat case_match; repeat constructor; done.
  - unfold ApiWrites.handleNavigate, ApiWrites.minimizeIfModal.
    repeat case_match; repeat constructor; done.
Qed.

Lemma slots_ok_onePerKind s : slots_ok s → onePerKind s.
Proof.
  intros [Hm Hd]. unfold onePerKind, activeItems, playable.
  destruct (activeMedia s) as [m|] eqn:Em, (activeModal s) as [d|] eqn:Ed; simpl;
    rewrite ?(Hm _ eq_refl), ?(Hd _ eq_refl); simpl; lia.
Qed.

(** What a navigation step does with the post next to the current
    position. *)
Lemma navigation_shows current handler d s i p :
  navigation current handler d →
  current s = Some i →
  JS.at_index (filtered s) (i + d) = Some p →
  ∃ s', handler s = Returned s'
        ∧ if isMediaPost (type p)
          then activeItems s' = [(p, FullScreen)]
          else activeModal s'
               = Some {| ActiveModalState.post := p; ActiveModalState.index := i + d |}
               ∧ ActiveMediaState.post <$> activeMedia s'
                 = ActiveMediaState.post <$> activeMedia s.
Proof.
  intros Hnav Hi Hp. destruct (isMediaPost (type p)) eqn:Hkind.
  { exists (showMedia p (i + d) 0 s). split; [|done].
    by apply (navigation_to_media current handler). }
  destruct Hnav.
  - exists (shown p (i + 1) s). split; [by apply mock_handleNext_in_range|].
    unfold shown. by rewrite Hkind.
  - exists (shown p (i + -1) s). split; [by apply mock_handlePrev_in_range|].
    unfold shown. by rewrite Hkind.
  - exists (api_shown p (i + 1) s).
    split; [by apply (api_handleNavigate_in_range ApiApp.next)|].
    unfold api_shown. rewrite Hkind.
    by rewrite minimizeIfModal_activeModal, minimizeIfModal_post.
  - exists (api_shown p (i + -1) s).
    split; [by apply (api_handleNavigate_in_range ApiApp.prev)|].
    unfold api_shown. rewrite Hkind.
    by rewrite minimizeIfModal_activeModal, minimizeIfModal_post.
Qed.

(** A navigation step that returns with no post next to the current
    position has changed nothing. *)
Lemma navigation_without_a_neighbour current handler d s s' :
  navigation current handler d →
  (∀ i, current s = Some i → JS.at_index (filtered s) (i + d) = None) →
  handler s = Returned s' → s' = s.
Proof.
  intros Hnav Hnone Hret. destruct Hnav.
  - apply mock_handleNext_Returned in Hret as [->|(i & p & Hi & Hp & _)]; [done|].
    specialize (Hnone i Hi). congruence.
  - apply mock_handlePrev_Returned in Hret as [->|(i & p & Hi & Hp & _)]; [done|].
    specialize (Hnone i Hi). replace (i + -1) with (i - 1) in Hnone by lia. congruence.
  - apply api_handleNavigate_Returned in Hret as [->|(i & p & Hi & Hp & _)]; [done|].
    specialize (Hnone i Hi). simpl in Hp. congruence.
  - apply api_handleNavigate_Returned in Hret as [->|(i & p & Hi & Hp & _)]; [done|].
    specialize (Hnone i Hi). simpl in Hp. congruence.
Qed.

(** C2, amended. In every reachable state of either variant, and after
    each single write of the handler of any event there, at most one
    audio or video item and at most one item of another kind are active.
    A card click on an audio or video post of the filtered list leaves
    one active item, full screen, with the identifier of that post (the
    post itself, or the item the player held minimized under that
    identifier), and a navigation step with an audio or video post next
    to the current position leaves that post as the only active item,
    full screen; a card click on a post of another kind, and a
    navigation step with such a post next to the current position, put
    it in the modal and keep the item of the player; a navigation step
    that returns with no post next to the current position changes
    nothing. *)
Theorem one_active_item_per_slot (s : AppState) :
  MockApp.reachable s ∨ ApiApp.reachable s →
  onePerKind s
  ∧ (∀ e,
       MockApp.step e s = writeAll (MockWrites.writes e s) s
       ∧ ApiApp.step e s = writeAll (ApiWrites.writes e s) s
       ∧ ∀ k, onePerKind (writeAll (take k (MockWrites.writes e s)) s)
              ∧ onePerKind (writeAll (take k (ApiWrites.writes e s)) s))
  ∧ (∀ post s',
       (∃ p, p ∈ filtered s ∧ _id p = _id post) →
       s' = MockApp.handleCardClick post s ∨ s' = ApiApp.handleCardClick post s →
       if isMediaPost (type post)
       then ∃ shown, activeItems s' = [(shown, FullScreen)] ∧ _id shown = _id post
       else activeModal s'
            = Some {| ActiveModalState.post := post;
                      ActiveModalState.index :=
                        JS.findIndex (λ p, String.eqb (_id p) (_id post)) (filtered s) |}
            ∧ ActiveMediaState.post <$> activeMedia s'
              = ActiveMediaState.post <$> activeMedia s)
  ∧ (∀ current handler d,
       navigation current handler d →
       (∀ i p,
          current s = Some i →
          JS.at_index (filtered s) (i + d) = Some p →
          ∃ s', handler s = Returned s'
                ∧ if isMediaPost (type p)
                  then activeItems s' = [(p, FullScreen)]
                  else activeModal s'
                       = Some {| ActiveModalState.post := p;
                                 ActiveModalState.index := i + d |}
                       ∧ ActiveMediaState.post <$> activeMedia s'
                         = ActiveMediaState.post <$> activeMedia s)
       ∧ (∀ s',
            (∀ i, current s = Some i → JS.at_index (filtered s) (i + d) = None) →
            handler s = Returned s' → s' = s)).
Proof.
  intros Hreach.
  assert (slots_ok s) as Hs.
  { destruct Hreach; [by apply mock_reachable_slots_ok | by apply api_reachable_slots_ok]. }
  split; [by apply slots_ok_onePerKind|]. split; [|split].
  - intros e. split; [apply mock_step_writes|]. split; [apply api_step_writes|].
    intros k. split; apply slots_ok_onePerKind, slots_ok_writeAll; try done.
    + apply mock_writes_wellKinded.
    + apply api_writes_wellKinded.
  - intros post s' Hin Hs'. destruct (isMediaPost (type post)) eqn:Hkind.
    + by eapply cardClick_media_activeItems.
    + apply cardClick_present, Z.eqb_neq in Hin.
      destruct Hs' as [-> | ->];
        unfold MockApp.handleCardClick, ApiApp.handleCardClick; rewrite Hin, Hkind.
      * done.
      * by rewrite minimizeIfModal_activeModal, minimizeIfModal_post.
  - intros current handler d Hnav. split.
    + intros i p. by apply navigation_shows.
    + intros s'. by apply navigation_without_a_neighbour.
Qed.

(** On the sample catalog: opening the video while the song is minimized
    leaves the video as the only active item. *)
Lemma one_active_item_per_slot_witness :
  let s := MockApp.step MinimizeMedia (MockApp.step (CardClick Sample.song) Sample.loaded) in
  ∃ shown, activeItems (MockApp.handleCardClick Sample.clip s) = [(shown, FullScreen)]
           ∧ _id shown = _id Sample.clip.
Proof.
  intros s.
  destruct (one_active_item_per_slot s) as (_ & _ & Hclick & _).
  - left. do 2 apply MockApp.reachable_step.
    apply (MockApp.reachable_step (PostsLoaded Sample.catalog)), MockApp.reachable_initial.
  - apply (Hclick Sample.clip (MockApp.handleCardClick Sample.clip s)); [|by left].
    exists Sample.clip. split; [|reflexivity].
    vm_compute. apply list_elem_of_In. simpl. tauto.
Defined.

(** Between the two writes of that click the song and the video are
    never active together: the first write replaces the song. *)
Example cardClick_write_by_write :
  let s := MockApp.step MinimizeMedia (MockApp.step (CardClick Sample.song) Sample.loaded) in
  activeItems <$> ((λ k, writeAll (take k (MockWrites.writes (CardClick Sample.clip) s)) s)
                     <$> [0; 1; 2]%nat)
  = [ [(Sample.song, Minimized)]; [(Sample.clip, FullScreen)];
      [(Sample.clip, FullScreen)] ].
Proof. reflexivity. Qed.

(** ** Opening an item *)

(** The claim C4 as the specification has it fails in its second half.
    With the song minimized (a reachable state), a click on the grocery
    note is not the re-opening of a minimized item, yet it does not
    replace the active item: the song stays active, minimized, next to
    the note. *)
Lemma openItem_keeps_the_player_item :
  ¬ (∀ s post,
       MockApp.reachable s →
       (∃ p, p ∈ filtered s ∧ _id p = _id post) →
       (∀ held, activeMedia s = Some held →
                ¬ (_id (ActiveMediaState.post held) = _id post
                   ∧ ActiveMediaState.mode held = minimized)) →
       activeItems (MockApp.handleCardClick post s) = [(post, FullScreen)]).
Proof.
  intros Hreplace.
  specialize (Hreplace
    (MockApp.step MinimizeMedia (MockApp.step (CardClick Sample.song) Sample.loaded))
    Sample.memo).
  cut (activeItems
         (MockApp.handleCardClick Sample.memo
            (MockApp.step MinimizeMedia
               (MockApp.step (CardClick Sample.song) Sample.loaded)))
       = [(Sample.memo, FullScreen)]); [by vm_compute|].
  apply Hreplace.
  - do 2 apply MockApp.reachable_step.
    apply (MockApp.reachable_step (PostsLoaded Sample.catalog)), MockApp.reachable_initial.
  - exists Sample.memo. split; [|done]. vm_compute. apply list_elem_of_In. simpl. tauto.
  - intros held [= <-] [Hid _]. vm_compute in Hid. discriminate Hid.
Qed.

Example note_opened_over_minimized_song :
  activeItems
    (MockApp.handleCardClick Sample.memo
       (MockApp.step MinimizeMedia (MockApp.step (CardClick Sample.song) Sample.loaded)))
  = [(Sample.song, Minimized); (Sample.memo, FullScreen)].
Proof. reflexivity. Qed.

(** A click on the item that is already full screen writes the active
    media again but is no new item for the player: a paused song stays
    paused. *)
Example reopening_full_screen_item_keeps_transport :
  let s := MockApp.handleCardClick Sample.song Sample.loaded in
  let st :=
    {| MinimizedPlayer.isPlaying := false; MinimizedPlayer.duration := Some 180;
       MinimizedPlayer.currentTime := 40;
       MinimizedPlayer.media :=
         {| MinimizedPlayer.paused := true; MinimizedPlayer.mediaTime := 40;
            MinimizedPlayer.mediaDuration := Some 180 |};
       MinimizedPlayer.resumeAt := Some 12 |} in
  transport (dispatch true (MockApp.handleCardClick Sample.song)
               {| app := s; player := Some st |})
  = Some {| startAt := Some 12; playing := false; elapsed := 40 |}.
Proof. reflexivity. Qed.

(** On a first open the element is sought to the resume time of the post
    once its metadata is there. *)
Lemma first_open_seeks_to_initialTime allowed post index d :
  isMediaPost (type post) = true →
  let data :=
    {| ActiveMediaState.post := post; ActiveMediaState.index := index;
       ActiveMediaState.mode := modal;
       ActiveMediaState.currentTime := Some (or_zero (initialTime post)) |} in
  MinimizedPlayer.mediaTime
    (MinimizedPlayer.media
       (MinimizedPlayer.handleLoadedMetadata d (MinimizedPlayer.mount allowed data)))
  = default 0 (initialTime post).
Proof.
  intros Hkind data.
  unfold MinimizedPlayer.handleLoadedMetadata, MinimizedPlayer.mount,
    MinimizedPlayer.setupEffect, MinimizedPlayer.modeEffect,
    MinimizedPlayer.playbackEffect, MinimizedPlayer.play.
  rewrite PlayerFacts.isMedia_isMediaPost. simpl. rewrite Hkind. simpl.
  rewrite or_zero_default.
  destruct allowed; simpl; destruct (initialTime post) as [t|]; simpl; try done;
    by destruct (Z.eqb_spec t 0).
Qed.

(** C4, amended. Let the post be in the filtered list, at [index], and
    let [start] be [initialTime || 0].
    - An audio or video post that the player holds minimized: the active
      media goes to the mode [modal] and is the only active item, full
      screen; the modal is closed; the transport state is as before and
      playback is not paused.
    - Any other audio or video post: it is the only active item, full
      screen, at [index], to be played from [start]. Unless the player
      already holds that very post, the cells of the player are reset to
      playing and an elapsed time of 0, and the listener of
      [loadedmetadata] seeks the element to [start] when [start] is not
      0 and leaves it otherwise, so that a new element, which loads at
      0, is at [start] then. On a first open the element is started when
      the host allows it.
    - A post of another kind: it goes to the modal at [index]; the
      player keeps its item, position, start time and state, and a
      minimized player stays minimized. *)
Theorem openItem_effect (allowed : bool) (post : Post) (sys : System) :
  mounted sys →
  (∃ p, p ∈ filtered (app sys) ∧ _id p = _id post) →
  let s := app sys in
  let index := JS.findIndex (λ p, String.eqb (_id p) (_id post)) (filtered s) in
  let start := default 0 (initialTime post) in
  let opened :=
    {| ActiveMediaState.post := post; ActiveMediaState.index := index;
       ActiveMediaState.mode := modal; ActiveMediaState.currentTime := Some start |} in
  let sys' := dispatch allowed (MockApp.handleCardClick post) sys in
  let fresh := Some {| startAt := Some start; playing := true; elapsed := 0 |} in
  if isMediaPost (type post) then
    match activeMedia s, player sys with
    | Some held, Some st =>
        if String.eqb (_id (ActiveMediaState.post held)) (_id post)
           && mode_eqb (ActiveMediaState.mode held) minimized
        then
          app sys'
          = setActiveModal None
              (setActiveMedia (Some (ActiveMediaState.with_mode held modal)) s)
          ∧ activeItems (app sys') = [(ActiveMediaState.post held, FullScreen)]
          ∧ MockApp.currentIndex (app sys') = Some (ActiveMediaState.index held)
          ∧ transport sys' = transport sys
          ∧ ∃ st', player sys' = Some st' ∧ keptPlayback st st'
        else
          app sys' = showMedia post index start s
          ∧ activeItems (app sys') = [(post, FullScreen)]
          ∧ (_id (ActiveMediaState.post held) ≠ _id post →
             transport sys' = fresh
             ∧ ∃ st', player sys' = Some st'
                      ∧ MinimizedPlayer.mediaTime (MinimizedPlayer.media st')
                        = (if MinimizedPlayer.sameElement held opened
                           then MinimizedPlayer.mediaTime (MinimizedPlayer.media st)
                           else 0)
                      ∧ ∀ d, MinimizedPlayer.mediaTime
                               (MinimizedPlayer.media
                                  (MinimizedPlayer.handleLoadedMetadata d st'))
                             = if start =? 0
                               then MinimizedPlayer.mediaTime (MinimizedPlayer.media st')
                               else start)
    | _, _ =>
        app sys' = showMedia post index start s
        ∧ activeItems (app sys') = [(post, FullScreen)]
        ∧ transport sys' = fresh
        ∧ ∃ st', player sys' = Some st'
                 ∧ MinimizedPlayer.paused (MinimizedPlayer.media st') = negb allowed
                 ∧ ∀ d, MinimizedPlayer.mediaTime
                          (MinimizedPlayer.media
                             (MinimizedPlayer.handleLoadedMetadata d st'))
                        = start
    end
  else
    activeModal (app sys')
    = Some {| ActiveModalState.post := post; ActiveModalState.index := index |}
    ∧ ActiveMediaState.post <$> activeMedia (app sys')
      = ActiveMediaState.post <$> activeMedia s
    ∧ ActiveMediaState.index <$> activeMedia (app sys')
      = ActiveMediaState.index <$> activeMedia s
    ∧ ActiveMediaState.currentTime <$> activeMedia (app sys')
      = ActiveMediaState.currentTime <$> activeMedia s
    ∧ (∀ held, activeMedia s = Some held →
               ActiveMediaState.mode held = minimized →
               activeMedia (app sys') = Some held)
    ∧ player sys' = player sys.
Proof.
  intros Hmounted Hin%cardClick_present%Z.eqb_neq. cbv zeta.
  destruct sys as [s pl]. unfold mounted in Hmounted. simpl in *.
  unfold dispatch, MockApp.handleCardClick, transport. simpl. rewrite Hin.
  destruct (isMediaPost (type post)) eqn:Hkind.
  - rewrite <- or_zero_default.
    assert (∀ index,
              MinimizedPlayer.isMedia
                {| ActiveMediaState.post := post; ActiveMediaState.index := index;
                   ActiveMediaState.mode := modal;
                   ActiveMediaState.currentTime := Some (or_zero (initialTime post)) |}
              = true) as Hmedia.
    { intros index. by rewrite PlayerFacts.isMedia_isMediaPost. }
    assert (∀ allowed data d,
              MinimizedPlayer.isMedia data = true →
              ActiveMediaState.currentTime data = Some (or_zero (initialTime post)) →
              MinimizedPlayer.mediaTime
                (MinimizedPlayer.media
                   (MinimizedPlayer.handleLoadedMetadata d
                      (MinimizedPlayer.mount allowed data)))
              = or_zero (initialTime post)) as Hfirst.
    { intros a data d Hdata Htime.
      destruct (PlayerFacts.mount_cells a data Hdata) as (_ & _ & Hresume).
      rewrite (PlayerFacts.mediaTime_handleLoadedMetadata d _ _
                 (eq_trans Hresume Htime)).
      rewrite (PlayerFacts.mount_element a data Hdata). simpl.
      by destruct (Z.eqb_spec (or_zero (initialTime post)) 0). }
    destruct (activeMedia s) as [held|] eqn:Hheld, pl as [st|]; try done; simpl.
    + destruct (String.eqb _ _ && _) eqn:Hsame; simpl.
      * pose proof (PlayerFacts.update_with_mode allowed held modal st) as [Hkept _].
        split; [done|]. split; [done|]. split; [done|]. split; [|by eexists].
        by destruct Hkept as (-> & -> & _).
      * split; [done|]. split; [done|]. intros Hnew.
        match goal with
        | |- context [MinimizedPlayer.update allowed held ?data st] =>
            destruct (PlayerFacts.update_new_item allowed held data st)
              as (Hplaying & Htime & Hresume);
              [simpl; congruence | apply Hmedia |];
              pose proof (PlayerFacts.mediaTime_update allowed held data st) as Hwhere
        end.
        simpl in *. rewrite Hplaying, Htime. split; [done|].
        eexists. split; [done|]. split; [exact Hwhere|].
        intros d. by rewrite Hresume.
    + split; [done|]. split; [done|].
      match goal with
      | |- context [MinimizedPlayer.mount allowed ?data] =>
          destruct (PlayerFacts.mount_cells allowed data (Hmedia _))
            as (Hplaying & Htime & _);
            pose proof (PlayerFacts.mount_element allowed data (Hmedia _)) as Helement;
            pose proof (λ d, Hfirst allowed data d (Hmedia _) eq_refl) as Hseek
      end.
      rewrite Hplaying, Htime. split; [done|].
      eexists. split; [done|]. split; [by rewrite Helement | exact Hseek].
  - split; [done|]. do 3 (split; [done|]). simpl. split.
    + intros held Hheld _. by rewrite Hheld.
    + destruct (activeMedia s) as [held|], pl as [st|]; try done; simpl.
      by rewrite update_same.
Qed.

(** The scenario of the specification: the song is minimized, playing,
    at second 12 of its clock; a click on its card shows it full screen,
    playing, at second 12. *)
Lemma openItem_effect_witness :
  let s := MockApp.handleMinimizeMedia (MockApp.handleCardClick Sample.song Sample.loaded) in
  let st :=
    {| MinimizedPlayer.isPlaying := true; MinimizedPlayer.duration := Some 180;
       MinimizedPlayer.currentTime := 12;
       MinimizedPlayer.media :=
         {| MinimizedPlayer.paused := false; MinimizedPlayer.mediaTime := 12;
            MinimizedPlayer.mediaDuration := Some 180 |};
       MinimizedPlayer.resumeAt := Some 12 |} in
  let sys := {| app := s; player := Some st |} in
  let sys' := dispatch true (MockApp.handleCardClick Sample.song) sys in
  activeItems (app sys') = [(Sample.song, FullScreen)]
  ∧ transport sys' = Some {| startAt := Some 12; playing := true; elapsed := 12 |}.
Proof.
  intros s st sys sys'.
  pose proof (openItem_effect true Sample.song sys) as Hopen.
  assert (mounted sys) as Hmounted by exact I.
  assert (∃ p, p ∈ filtered (app sys) ∧ _id p = _id Sample.song) as Hin.
  { exists Sample.song. split; [|reflexivity].
    vm_compute. apply list_elem_of_In. simpl. tauto. }
  specialize (Hopen Hmounted Hin). simpl in Hopen.
  destruct Hopen as (_ & Hitems & _ & Htransport & _).
  split; [exact Hitems | exact Htransport].
Defined.

(** A first open of the song on the loaded catalog: the element is
    started, and sought to second 12 once its metadata is loaded. *)
Example first_open_of_the_song :
  let sys' :=
    dispatch true (MockApp.handleCardClick Sample.song)
      {| app := Sample.loaded; player := None |} in
  transport sys' = Some {| startAt := Some 12; playing := true; elapsed := 0 |}
  ∧ (MinimizedPlayer.media
       <$> (MinimizedPlayer.handleLoadedMetadata (Some 180) <$> player sys'))
    = Some {| MinimizedPlayer.paused := false; MinimizedPlayer.mediaTime := 12;
              MinimizedPlayer.mediaDuration := Some 180 |}.
Proof. by vm_compute. Qed.

(** * Further properties of the code *)

(** ** [useSwipe] *)

Ltac swipe_cases :=
  unfold useSwipe.onTouchEnd, useSwipe.MAX_SWIPE_TIME, useSwipe.MIN_SWIPE_DISTANCE;
  cbv zeta; rewrite !Z.gtb_ltb;
  repeat match goal with
         | |- context [?a <? ?b] => destruct (Z.ltb_spec a b)
         end.

(** X1. The end of a tracked single-finger touch always clears the
    tracked start, and calls at most one callback, decided by the
    displacement [(dx, dy)] and the duration [dt]: right or left when the
    horizontal move is the longer one and exceeds 50 pixels, down or up
    when the vertical move is at least as long (an exact diagonal counts
    as vertical) and exceeds 50 pixels, none when the touch lasted more
    than 500 ms or moved at most 50 pixels both ways. *)
Theorem touch_end_classifies (start : useSwipe.TouchStart) (touch : useSwipe.Touch)
    (now : Z) :
  let dx := useSwipe.clientX touch - useSwipe.x start in
  let dy := useSwipe.clientY touch - useSwipe.y start in
  let dt := now - useSwipe.time start in
  let result := useSwipe.onTouchEnd (Some start) [touch] now in
  result.1 = None
  ∧ (result.2 = Some Modal.SwipedRight ↔ dt ≤ 500 ∧ 50 < dx ∧ Z.abs dy < dx)
  ∧ (result.2 = Some Modal.SwipedLeft ↔ dt ≤ 500 ∧ dx < -50 ∧ Z.abs dy < - dx)
  ∧ (result.2 = Some Modal.SwipedDown ↔ dt ≤ 500 ∧ 50 < dy ∧ Z.abs dx ≤ dy)
  ∧ (result.2 = Some Modal.SwipedUp ↔ dt ≤ 500 ∧ dy < -50 ∧ Z.abs dx ≤ - dy)
  ∧ (result.2 = None ↔ 500 < dt ∨ (Z.abs dx ≤ 50 ∧ Z.abs dy ≤ 50)).
Proof.
  cbv zeta. swipe_cases; simpl; (split; [done|]);
    repeat split; try discriminate; try lia; intros; exfalso; lia.
Qed.

(** X2. Left and right are told apart by the sign of the horizontal
    move alone: the same touch with its horizontal coordinates negated
    calls the mirrored callback, and up and down stay what they were. *)
Theorem touch_end_mirror (start : useSwipe.TouchStart) (touch : useSwipe.Touch)
    (now : Z) :
  let flipStart :=
    {| useSwipe.x := - useSwipe.x start; useSwipe.y := useSwipe.y start;
       useSwipe.time := useSwipe.time start |} in
  let flipTouch :=
    {| useSwipe.clientX := - useSwipe.clientX touch;
       useSwipe.clientY := useSwipe.clientY touch |} in
  (useSwipe.onTouchEnd (Some flipStart) [flipTouch] now).2
  = mirrored <$> (useSwipe.onTouchEnd (Some start) [touch] now).2.
Proof.
  cbv zeta. swipe_cases; simpl in *; try done; exfalso; lia.
Qed.

Lemma onTouchEnd_budget touchStart changedTouches now :
  let result := useSwipe.onTouchEnd touchStart changedTouches now in
  (length (option_list result.2) + pending result.1 ≤ pending touchStart)%nat.
Proof.
  cbv zeta. destruct touchStart as [start|]; [|done].
  destruct changedTouches as [|touch [|? ?]]; [simpl; lia | | simpl; lia].
  swipe_cases; simpl; lia.
Qed.

(** X3. Along any sequence of touch events, each start that is tracked
    (a single finger) pays for at most one callback: a touch that began
    with several fingers, was cancelled, or has already ended calls
    nothing. *)
Theorem swipes_bounded_by_tracked_starts (events : list useSwipe.TouchEvent)
    (touchStart : option useSwipe.TouchStart) :
  (length (useSwipe.run events touchStart)
   ≤ trackedStarts events + pending touchStart)%nat.
Proof.
  revert touchStart. induction events as [|e events IH]; intros touchStart.
  - simpl. lia.
  - simpl. destruct e as [touches now|changedTouches now|]; simpl.
    + specialize (IH (useSwipe.onTouchStart touches now)).
      unfold trackedStarts in *. simpl.
      destruct touches as [|touch [|? ?]]; simpl in *; lia.
    + pose proof (onTouchEnd_budget touchStart changedTouches now) as Hbudget.
      cbv zeta in Hbudget.
      destruct (useSwipe.onTouchEnd touchStart changedTouches now) as [next called].
      specialize (IH next). rewrite length_app. unfold trackedStarts in *.
      simpl in *. lia.
    + specialize (IH None). unfold trackedStarts, useSwipe.onTouchCancel in *.
      simpl in *. lia.
Qed.

(** ** Gestures on the player and on the modal *)

Lemma mock_hasNext_false s : MockView.hasNext s = false → MockApp.step NextItem s = s.
Proof.
  unfold MockView.hasNext, MockView.currentIndex. simpl. unfold MockApp.handleNext.
  destruct (MockApp.currentIndex s) as [i|]; simpl; [|done].
  intros Hgate%Z.ltb_ge. destruct (Z.geb_spec i (JS.len (filtered s) - 1)); [done | lia].
Qed.

Lemma mock_hasPrev_false s : MockView.hasPrev s = false → MockApp.step PrevItem s = s.
Proof.
  unfold MockView.hasPrev, MockView.currentIndex. simpl. unfold MockApp.handlePrev.
  destruct (MockApp.currentIndex s) as [i|]; simpl; [|done].
  rewrite Z.gtb_ltb. intros Hgate%Z.ltb_ge. destruct (Z.leb_spec i 0); [done | lia].
Qed.

(** X4. In the mock-data variant the gates [hasNext] and [hasPrev] of
    the player never change what happens: where a gate holds the call
    back, the handler would have returned the state as it is. So a swipe
    on the full-screen player does what the handler of its direction
    does (left: next, right: previous, up: close, down: minimize), the
    media keys for the next and the previous track do what [handleNext]
    and [handlePrev] do, and a swipe on the minimized player does
    nothing. *)
Theorem mock_player_gates_are_the_handler_guards (s : AppState)
    (data : ActiveMediaState.t) :
  activeMedia s = Some data →
  (if ActiveMediaState.mode data is modal
   then MockView.playerSwiped Modal.SwipedLeft s = MockApp.step NextItem s
        ∧ MockView.playerSwiped Modal.SwipedRight s = MockApp.step PrevItem s
        ∧ MockView.playerSwiped Modal.SwipedUp s = MockApp.handleCloseMedia s
        ∧ MockView.playerSwiped Modal.SwipedDown s = MockApp.handleMinimizeMedia s
   else ∀ swipe, MockView.playerSwiped swipe s = s)
  ∧ from_option (λ e, MockApp.step e s) s (PlayerView.nexttrack (MockView.hasNext s))
    = MockApp.step NextItem s
  ∧ from_option (λ e, MockApp.step e s) s (PlayerView.previoustrack (MockView.hasPrev s))
    = MockApp.step PrevItem s.
Proof.
  intros Hdata.
  assert (from_option (λ e, MockApp.step e s) s (PlayerView.nexttrack (MockView.hasNext s))
          = MockApp.step NextItem s) as Hnext.
  { unfold PlayerView.nexttrack. destruct (MockView.hasNext s) eqn:Hgate; [done|].
    symmetry. by apply mock_hasNext_false. }
  assert (from_option (λ e, MockApp.step e s) s
            (PlayerView.previoustrack (MockView.hasPrev s))
          = MockApp.step PrevItem s) as Hprev.
  { unfold PlayerView.previoustrack. destruct (MockView.hasPrev s) eqn:Hgate; [done|].
    symmetry. by apply mock_hasPrev_false. }
  split; [|done].
  unfold MockView.playerSwiped, PlayerView.onSwipe. rewrite Hdata.
  destruct (ActiveMediaState.mode data); simpl; [|done].
  unfold PlayerView.nexttrack, PlayerView.previoustrack in *.
  by destruct (MockView.hasNext s), (MockView.hasPrev s).
Qed.

(** With the video full screen at the first position, a swipe to the
    right is held back by the gate, as [handlePrev] would do nothing. *)
Lemma mock_player_gates_are_the_handler_guards_witness :
  let s := MockApp.handleCardClick Sample.clip Sample.loaded in
  MockView.hasPrev s = false
  ∧ MockView.playerSwiped Modal.SwipedRight s = MockApp.step PrevItem s
  ∧ MockView.playerSwiped Modal.SwipedLeft s = MockApp.step NextItem s.
Proof.
  intros s.
  destruct (mock_player_gates_are_the_handler_guards s
              {| ActiveMediaState.post := Sample.clip; ActiveMediaState.index := 0;
                 ActiveMediaState.mode := modal;
                 ActiveMediaState.currentTime := Some 0 |})
    as [(Hleft & Hright & _) _]; [reflexivity|].
  split; [reflexivity|]. by split.
Defined.

(** X5. A quick stroke downwards (a single finger, at most 500 ms, more
    than 50 pixels down and at least as far down as sideways) is a swipe
    down. On the full-screen player of the mock-data variant it
    minimizes the player; on the modal it closes the modal and leaves
    the player as it is. *)
Theorem quick_stroke_down (s : AppState) (from to : useSwipe.Touch) (t0 t1 : Z) :
  t1 - t0 ≤ 500 →
  50 < useSwipe.clientY to - useSwipe.clientY from →
  Z.abs (useSwipe.clientX to - useSwipe.clientX from)
  ≤ useSwipe.clientY to - useSwipe.clientY from →
  useSwipe.run [useSwipe.TouchStarted [from] t0; useSwipe.TouchEnded [to] t1] None
  = [Modal.SwipedDown]
  ∧ (∀ data, activeMedia s = Some data → ActiveMediaState.mode data = modal →
       MockView.playerSwiped Modal.SwipedDown s
       = setActiveMedia (Some (ActiveMediaState.with_mode data minimized)) s)
  ∧ (∀ d, activeModal s = Some d →
       MockView.modalSwiped Modal.SwipedDown s = setActiveModal None s).
Proof.
  intros Hdt Hdy Hdx. split; [|split].
  - unfold useSwipe.run, useSwipe.handle, useSwipe.onTouchStart. simpl fst. simpl snd.
    cbv iota beta. swipe_cases; simpl in *; try done; exfalso; lia.
  - intros data Hdata Hmode.
    unfold MockView.playerSwiped, PlayerView.onSwipe. rewrite Hdata, Hmode. simpl.
    unfold MockApp.handleMinimizeMedia, switchMode. by rewrite Hdata.
  - intros d Hd. unfold MockView.modalSwiped. by rewrite Hd.
Qed.

Lemma quick_stroke_down_witness :
  let s := MockApp.handleCardClick Sample.song Sample.loaded in
  let from := {| useSwipe.clientX := 100; useSwipe.clientY := 200 |} in
  let to := {| useSwipe.clientX := 120; useSwipe.clientY := 320 |} in
  useSwipe.run [useSwipe.TouchStarted [from] 1000; useSwipe.TouchEnded [to] 1300] None
  = [Modal.SwipedDown]
  ∧ activeItems (MockView.playerSwiped Modal.SwipedDown s) = [(Sample.song, Minimized)].
Proof.
  intros s from to.
  destruct (quick_stroke_down s from to 1000 1300) as (Hrun & Hplayer & _);
    [simpl; lia..|].
  split; [exact Hrun|].
  rewrite (Hplayer _ eq_refl eq_refl). reflexivity.
Defined.

Lemma api_gate_next s i :
  ApiApp.currentItem s = Some i →
  (i <? JS.len (filtered s) - 1) = false → ApiApp.step NextItem s = s.
Proof.
  intros Hi Hgate%Z.ltb_ge. simpl. unfold ApiApp.handleNext, ApiApp.handleNavigate.
  rewrite Hi. destruct (Z.geb_spec (i + 1) (JS.len (filtered s))); [|lia].
  by rewrite orb_true_r.
Qed.

Lemma api_gate_prev s i :
  ApiApp.currentItem s = Some i → (i >? 0) = false → ApiApp.step PrevItem s = s.
Proof.
  rewrite Z.gtb_ltb. intros Hi Hgate%Z.ltb_ge. simpl.
  unfold ApiApp.handlePrev, ApiApp.handleNavigate.
  rewrite Hi. by destruct (Z.ltb_spec (i - 1) 0); [|lia].
Qed.

(** X21. In the remote-API variant the gates of the component that
    shows the current item never change what happens. A swipe left or
    right on the full-screen player does what [handleNext] and
    [handlePrev] do; and when the player is not full screen, the arrow
    keys and the swipes left and right on the modal do what [handleNext]
    and [handlePrev] do, while Escape and the swipes up and down close
    the modal. *)
Theorem api_gates_are_the_handler_guards (s : AppState) :
  (∀ data, activeMedia s = Some data → ActiveMediaState.mode data = modal →
     ApiView.playerSwiped Modal.SwipedLeft s = ApiApp.step NextItem s
     ∧ ApiView.playerSwiped Modal.SwipedRight s = ApiApp.step PrevItem s)
  ∧ (∀ d, activeModal s = Some d →
       (∀ data, activeMedia s = Some data → ActiveMediaState.mode data = minimized) →
       ApiView.modalKeyDown Modal.ArrowRight s = ApiApp.step NextItem s
       ∧ ApiView.modalKeyDown Modal.ArrowLeft s = ApiApp.step PrevItem s
       ∧ ApiView.modalKeyDown Modal.Escape s = ApiApp.onCloseModal s
       ∧ ApiView.modalSwiped Modal.SwipedLeft s = ApiApp.step NextItem s
       ∧ ApiView.modalSwiped Modal.SwipedRight s = ApiApp.step PrevItem s
       ∧ ApiView.modalSwiped Modal.SwipedUp s = ApiApp.onCloseModal s
       ∧ ApiView.modalSwiped Modal.SwipedDown s = ApiApp.onCloseModal s).
Proof.
  split.
  - intros data Hdata Hmode.
    assert (ApiApp.currentItem s = Some (ActiveMediaState.index data)) as Hi.
    { unfold ApiApp.currentItem. by rewrite Hdata, Hmode. }
    unfold ApiView.playerSwiped, PlayerView.onSwipe, PlayerView.swipeHandlers,
      ApiView.hasNext, ApiView.hasPrev.
    rewrite Hdata, Hmode. simpl. split.
    + destruct (_ <? _) eqn:Hgate; [done|]. symmetry. by eapply api_gate_next.
    + destruct (_ >? _) eqn:Hgate; [done|]. symmetry. by eapply api_gate_prev.
  - intros d Hd Hunder.
    assert (ApiApp.currentItem s = Some (ActiveModalState.index d)) as Hi.
    { unfold ApiApp.currentItem. rewrite Hd.
      destruct (activeMedia s) as [data|]; [|done].
      by rewrite (Hunder data eq_refl). }
    unfold ApiView.modalKeyDown, ApiView.modalSwiped, Modal.handleKeyDown,
      Modal.swipeHandlers.
    rewrite Hd.
    repeat split; try done;
      first [ destruct (_ <? _) eqn:Hgate; [done|]; symmetry; by eapply api_gate_next
            | destruct (_ >? _) eqn:Hgate; [done|]; symmetry; by eapply api_gate_prev ].
Qed.

(** The note at the end of the loaded catalog, opened with nothing
    else: the right arrow is gated off, and [handleNext] would have
    returned the state as it is. *)
Lemma api_gates_are_the_handler_guards_witness :
  let s := ApiApp.step (CardClick Sample.idea) Sample.loaded in
  ApiView.modalKeyDown Modal.ArrowRight s = ApiApp.step NextItem s
  ∧ ApiView.modalKeyDown Modal.ArrowRight s = s.
Proof.
  intros s.
  destruct (api_gates_are_the_handler_guards s) as [_ Hmodal].
  destruct (Hmodal {| ActiveModalState.post := Sample.idea; ActiveModalState.index := 3 |})
    as (Hright & _); [reflexivity | intros data; discriminate |].
  split; [exact Hright | reflexivity].
Defined.

(** With the player restored over the modal the arrow keys of the modal
    are still gated by the position of the modal, while [handleNext]
    goes on from the position of the player: at the last note the right
    arrow does nothing, where [handleNext] would move on from the song. *)
Example api_modal_key_under_a_restored_player :
  let s := ApiApp.step RestoreMedia
             (ApiApp.step (CardClick Sample.idea)
                (ApiApp.step MinimizeMedia
                   (ApiApp.step (CardClick Sample.song) Sample.loaded))) in
  ApiView.modalKeyDown Modal.ArrowRight s = s
  ∧ ApiApp.step NextItem s ≠ s.
Proof. split; [reflexivity | discriminate]. Qed.

(** ** What an event can write *)

Lemma cardClick_cases post s s' :
  s' = MockApp.handleCardClick post s ∨ s' = ApiApp.handleCardClick post s →
  s' = s
  ∨ (∃ prev, activeMedia s = Some prev
             ∧ s' = setActiveModal None
                      (setActiveMedia
                         (Some (ActiveMediaState.with_mode prev modal)) s))
  ∨ (∃ i p t, JS.at_index (filtered s) i = Some p ∧ _id p = _id post
              ∧ (s' = showMedia post i t s ∨ s' = showModal post i s
                 ∨ s' = ApiApp.minimizeIfModal (showModal post i s))).
Proof.
  intros Hs'.
  set (i := JS.findIndex (λ p, String.eqb (_id p) (_id post)) (filtered s)) in *.
  assert (s' = (if i =? -1 then s
                else if isMediaPost (type post) then MockApp.handleCardClick post s
                else s')) as Hshape.
  { destruct Hs' as [-> | ->];
      unfold MockApp.handleCardClick, ApiApp.handleCardClick; fold i;
      by destruct (i =? -1), (isMediaPost (type post)). }
  destruct (Z.eqb_spec i (-1)) as [|Hfound]; [by left|]. right.
  destruct (findIndex_found _ _ Hfound) as (p & Hp & Hid%String.eqb_eq & _). fold i in Hp.
  destruct (isMediaPost (type post)) eqn:Hkind.
  - rewrite Hshape. unfold MockApp.handleCardClick. fold i.
    apply Z.eqb_neq in Hfound. rewrite Hfound, Hkind.
    destruct (activeMedia s) as [prev|] eqn:Hprev.
    + destruct (String.eqb _ _ && _); [left; by exists prev|].
      right. exists i, p, (or_zero (initialTime post)). auto.
    + right. exists i, p, (or_zero (initialTime post)). auto.
  - right. exists i, p, 0. split; [done|]. split; [done|]. right.
    apply Z.eqb_neq in Hfound.
    destruct Hs' as [-> | ->];
      unfold MockApp.handleCardClick, ApiApp.handleCardClick; fold i;
      rewrite Hfound, Hkind; auto.
Qed.

Lemma navigation_cases s s' :
  MockApp.handleNext s = Returned s' ∨ MockApp.handlePrev s = Returned s'
  ∨ ApiApp.handleNext s = Returned s' ∨ ApiApp.handlePrev s = Returned s' →
  s' = s
  ∨ ∃ i p, JS.at_index (filtered s) i = Some p
           ∧ (s' = showMedia p i 0 s ∨ s' = showModal p i s
              ∨ s' = ApiApp.minimizeIfModal (showModal p i s)).
Proof.
  intros [Hnav|[Hnav|[Hnav|Hnav]]].
  - apply mock_handleNext_Returned in Hnav as [->|(i & p & _ & Hp & ->)]; [by left|].
    right. exists (i + 1), p. split; [done|]. destruct (isMediaPost (type p)); auto.
  - apply mock_handlePrev_Returned in Hnav as [->|(i & p & _ & Hp & ->)]; [by left|].
    right. exists (i - 1), p. split; [done|]. destruct (isMediaPost (type p)); auto.
  - apply api_handleNavigate_Returned in Hnav as [->|(i & p & _ & Hp & ->)]; [by left|].
    right. exists (i + offset ApiApp.next), p. split; [done|].
    destruct (isMediaPost (type p)); auto.
  - apply api_handleNavigate_Returned in Hnav as [->|(i & p & _ & Hp & ->)]; [by left|].
    right. exists (i + offset ApiApp.prev), p. split; [done|].
    destruct (isMediaPost (type p)); auto.
Qed.

(** The shapes of the state after an event, in either variant. *)
Lemma step_cases e s s' :
  s' = MockApp.step e s ∨ s' = ApiApp.step e s →
  s' = s
  ∨ (∃ prev, activeMedia s = Some prev
             ∧ s' = setActiveModal None
                      (setActiveMedia
                         (Some (ActiveMediaState.with_mode prev modal)) s))
  ∨ (∃ i p post t, JS.at_index (filtered s) i = Some p ∧ _id p = _id post
                   ∧ (s' = showMedia post i t s ∨ s' = showModal post i s
                      ∨ s' = ApiApp.minimizeIfModal (showModal post i s)))
  ∨ (∃ m, s' = switchMode m s)
  ∨ s' = setActiveMedia None s
  ∨ s' = setActiveModal None s
  ∨ (changesList e
     ∧ ∃ list query, s' = setIsLoading (isLoading s')
                            (setSearchQuery query (setPosts list s))).
Proof.
  intros Hs'. destruct e as [post| | | | | | |query|loaded].
  - destruct (cardClick_cases post s s' Hs') as [->|[?|(i & p & t & ? & ? & ?)]];
      [by left | by right; left |].
    right. right. left. by exists i, p, post, t.
  - assert (s' = s ∨ MockApp.handleNext s = Returned s' ∨ ApiApp.handleNext s = Returned s')
      as [->|Hnav].
    { destruct Hs' as [-> | ->]; simpl.
      - destruct (MockApp.handleNext s); auto.
      - destruct (ApiApp.handleNext s); auto. }
    { by left. }
    destruct (navigation_cases s s') as [->|(i & p & ? & ?)]; [tauto | by left |].
    right. right. left. by exists i, p, p, 0.
  - assert (s' = s ∨ MockApp.handlePrev s = Returned s' ∨ ApiApp.handlePrev s = Returned s')
      as [->|Hnav].
    { destruct Hs' as [-> | ->]; simpl.
      - destruct (MockApp.handlePrev s); auto.
      - destruct (ApiApp.handlePrev s); auto. }
    { by left. }
    destruct (navigation_cases s s') as [->|(i & p & ? & ?)]; [tauto | by left |].
    right. right. left. by exists i, p, p, 0.
  - do 4 right. left. by destruct Hs' as [-> | ->].
  - do 3 right. left. exists minimized. by destruct Hs' as [-> | ->].
  - do 3 right. left. exists modal. by destruct Hs' as [-> | ->].
  - do 5 right. left. by destruct Hs' as [-> | ->].
  - do 6 right. split; [done|]. exists (posts s), query. by destruct Hs' as [-> | ->].
  - do 6 right. split; [done|]. exists loaded, (searchQuery s).
    by destruct Hs' as [-> | ->].
Qed.

Section SlotPredicate.
Variable Q : list Post → Post → Z → Prop.
Hypothesis Q_found :
  ∀ list post p i, JS.at_index list i = Some p → _id p = _id post → Q list post i.

Lemma slotsSatisfy_minimizeIfModal s :
  slotsSatisfy Q s → slotsSatisfy Q (ApiApp.minimizeIfModal s).
Proof.
  intros Hs. unfold ApiApp.minimizeIfModal.
  destruct (activeMedia s) as [prev|] eqn:Hprev; [|done].
  destruct (mode_eqb _ _); [|done].
  destruct Hs as [Hm Hd]. split; simpl; [intros m [= <-]; exact (Hm prev Hprev) | done].
Qed.

(** An event that keeps the filtered list keeps the slots in order; one
    that changes it does when [Q] does not look at the list, or when
    nothing is active. *)
Lemma slotsSatisfy_step e s s' :
  s' = MockApp.step e s ∨ s' = ApiApp.step e s →
  slotsSatisfy Q s →
  (changesList e →
   (∀ list list' post i, Q list post i → Q list' post i)
   ∨ (activeMedia s = None ∧ activeModal s = None)) →
  slotsSatisfy Q s'.
Proof.
  intros Hs' [Hm Hd] Hlist.
  destruct (step_cases e s s' Hs')
    as [->|[(prev & Hprev & ->)|[(i & p & post & t & Hp & Hid & Hshow)
       |[[m ->]|[->|[->|(Hchanges & list & query & Hset)]]]]]].
  - by split.
  - split; simpl; [intros m [= <-]; exact (Hm prev Hprev) | done].
  - assert (slotsSatisfy Q (showModal post i s)) as Hmodal.
    { split; simpl; [done|]. intros d [= <-]. by eapply Q_found. }
    destruct Hshow as [->|[->| ->]]; [|done|by apply slotsSatisfy_minimizeIfModal].
    split; simpl; [|done]. intros ? [= <-]. by eapply Q_found.
  - unfold switchMode. split; simpl; [|done].
    destruct (activeMedia s) as [prev|] eqn:Hprev; [|done].
    intros ? [= <-]. exact (Hm prev eq_refl).
  - by split.
  - by split.
  - rewrite Hset. destruct (Hlist Hchanges) as [Hany|[Hnomedia Hnomodal]].
    + split; simpl; intros x Hx; eapply Hany; eauto.
    + split; simpl; intros x Hx; congruence.
Qed.
End SlotPredicate.

(** ** Recorded positions *)

Lemma indexes_ok_step e s s' :
  s' = MockApp.step e s ∨ s' = ApiApp.step e s → indexes_ok s → indexes_ok s'.
Proof.
  intros Hs' Hok. eapply slotsSatisfy_step; [| exact Hs' | exact Hok |].
  - intros list post p i Hp%at_index_Some _. lia.
  - intros _. by left.
Qed.

Lemma indexes_ok_currentIndex s p :
  indexes_ok s → MockApp.currentIndex s = Some p → 0 ≤ p.
Proof.
  intros [Hm Hd]. unfold MockApp.currentIndex.
  destruct (activeMedia s) as [m|]; [intros [= <-]; by apply Hm|].
  destruct (activeModal s) as [d|]; [intros [= <-]; by apply Hd | done].
Qed.

(** X6. In every reachable state of either variant no recorded position
    is negative; so [handleNext] of the mock-data variant, which has no
    guard against reading before the list, never raises there. *)
Theorem recorded_positions_never_negative (s : AppState) :
  MockApp.reachable s ∨ ApiApp.reachable s →
  indexes_ok s ∧ MockApp.handleNext s ≠ Thrown.
Proof.
  intros Hreach.
  assert (indexes_ok s) as Hok.
  { destruct Hreach as [Hreach|Hreach]; induction Hreach as [|e s Hreach IH];
      try (by split); eapply indexes_ok_step; eauto. }
  split; [done|].
  intros (p & Hp & Hneg & _)%mock_handleNext_Thrown.
  pose proof (indexes_ok_currentIndex s p Hok Hp). lia.
Qed.

Lemma recorded_positions_never_negative_witness :
  MockApp.handleNext (MockApp.step (SearchChange "milk")
                        (MockApp.step (CardClick Sample.idea) Sample.loaded))
  ≠ Thrown.
Proof.
  apply recorded_positions_never_negative. left.
  do 2 apply MockApp.reachable_step.
  apply (MockApp.reachable_step (PostsLoaded Sample.catalog)), MockApp.reachable_initial.
Defined.

Lemma positions_ok_currentIndex s p :
  positions_ok s → MockApp.currentIndex s = Some p → 0 ≤ p < JS.len (filtered s).
Proof.
  intros [Hm Hd]. unfold MockApp.currentIndex.
  destruct (activeMedia s) as [m|].
  - intros [= <-]. destruct (Hm m eq_refl) as (q & Hq & _). by eapply at_index_Some.
  - destruct (activeModal s) as [d|]; [|done].
    intros [= <-]. destruct (Hd d eq_refl) as (q & Hq & _). by eapply at_index_Some.
Qed.

(** X7. Say that the positions are in order when each active item is
    recorded at a position where the filtered list of now holds a post
    with its identifier. Every event of either variant keeps the
    positions in order, provided the events that change the list (a new
    search text, a new catalog) come while nothing is active; and while
    the positions are in order neither [handleNext] nor [handlePrev] of
    the mock-data variant raises. *)
Theorem positions_stay_in_order (e : Event) (s : AppState) :
  positions_ok s →
  (changesList e → activeMedia s = None ∧ activeModal s = None) →
  positions_ok (MockApp.step e s)
  ∧ positions_ok (ApiApp.step e s)
  ∧ MockApp.handleNext s ≠ Thrown
  ∧ MockApp.handlePrev s ≠ Thrown.
Proof.
  intros Hok Hlist.
  assert (∀ s', s' = MockApp.step e s ∨ s' = ApiApp.step e s → positions_ok s') as Hstep.
  { intros s' Hs'. eapply slotsSatisfy_step; [| exact Hs' | exact Hok | auto].
    intros list post p i Hp Hid. by exists p. }
  split; [by apply Hstep; left|]. split; [by apply Hstep; right|]. split.
  - intros (p & Hp & Hneg & _)%mock_handleNext_Thrown.
    pose proof (positions_ok_currentIndex s p Hok Hp). lia.
  - intros (p & Hp & _ & Hpast)%mock_handlePrev_Thrown.
    pose proof (positions_ok_currentIndex s p Hok Hp). lia.
Qed.

(** With the last note open and the list as it was when it was opened,
    a further step keeps the positions in order and [handlePrev] does
    not raise. *)
Lemma positions_stay_in_order_witness :
  let s := MockApp.handleCardClick Sample.idea Sample.loaded in
  positions_ok (MockApp.step PrevItem s) ∧ MockApp.handlePrev s ≠ Thrown.
Proof.
  intros s.
  destruct (positions_stay_in_order PrevItem s) as (Hmock & _ & _ & Hprev).
  - split; [done|]. intros d [= <-]. exists Sample.idea. by split.
  - intros [].
  - by split.
Defined.

(** X8. [handleNavigate] of the remote-API variant never raises: it
    returns the state as it is when nothing is current or when the
    position beside the current one is outside the filtered list, and
    otherwise shows the post the list holds there. *)
Theorem api_navigation_never_raises (dir : ApiApp.Direction) (s : AppState) :
  ∃ s', ApiApp.handleNavigate dir s = Returned s'
        ∧ match ApiApp.currentItem s with
          | None => s' = s
          | Some i =>
              match JS.at_index (filtered s) (i + offset dir) with
              | None => s' = s
              | Some p => s' = api_shown p (i + offset dir) s
              end
          end.
Proof.
  destruct (ApiApp.handleNavigate dir s) as [s'|] eqn:Hnav;
    [|by apply api_handleNavigate_never_throws in Hnav].
  exists s'. split; [done|].
  destruct (ApiApp.currentItem s) as [i|] eqn:Hi.
  - destruct (JS.at_index (filtered s) (i + offset dir)) as [p|] eqn:Hp.
    + rewrite (api_handleNavigate_in_range dir s i p Hi Hp) in Hnav. by injection Hnav.
    + apply api_handleNavigate_Returned in Hnav as [->|(j & q & Hj & Hq & _)]; [done|].
      congruence.
  - apply api_handleNavigate_Returned in Hnav as [->|(j & q & Hj & _)]; [done|].
    congruence.
Qed.

(** ** What covers the screen *)

Lemma api_navigation_total dir s :
  settle s (ApiApp.handleNavigate dir s) = s
  ∨ ∃ i p, settle s (ApiApp.handleNavigate dir s) = api_shown p i s.
Proof.
  destruct (ApiApp.handleNavigate dir s) as [s'|] eqn:Hnav; [|by left].
  apply api_handleNavigate_Returned in Hnav as [->|(i & p & _ & _ & ->)]; [by left|].
  right. by exists (i + offset dir), p.
Qed.

Lemma fullScreenCount_api_shown p i s : (fullScreenCount (api_shown p i s) ≤ 1)%nat.
Proof.
  unfold api_shown, ApiApp.minimizeIfModal.
  destruct (isMediaPost (type p)); [by vm_compute|]. simpl.
  destruct (activeMedia s) as [m|] eqn:Hm; [|unfold fullScreenCount, activeItems; simpl;
    rewrite Hm; simpl; lia].
  destruct (ActiveMediaState.mode m) eqn:Hmode; simpl;
    unfold fullScreenCount, activeItems; simpl; rewrite ?Hm, ?Hmode; simpl; lia.
Qed.

Lemma fullScreenCount_slots s :
  fullScreenCount s
  = ((match activeMedia s with
      | Some m => if mode_eqb (ActiveMediaState.mode m) modal then 1 else 0
      | None => 0
      end)
     + (if activeModal s is Some _ then 1 else 0))%nat.
Proof.
  unfold fullScreenCount, activeItems.
  destruct (activeMedia s) as [m|], (activeModal s) as [d|]; simpl;
    try destruct (ActiveMediaState.mode m); reflexivity.
Qed.

(** X9. In the remote-API variant no event other than restoring the
    player can leave two items covering the screen: from a state with at
    most one full-screen item, a card click, a navigation step, a close,
    a minimize, a search or a load leads to a state with at most one. *)
Theorem api_keeps_one_item_full_screen (e : Event) (s : AppState) :
  (fullScreenCount s ≤ 1)%nat →
  e ≠ RestoreMedia →
  (fullScreenCount (ApiApp.step e s) ≤ 1)%nat.
Proof.
  intros Hone Hnot.
  assert (∀ p i, fullScreenCount (showMedia p i 0 s) ≤ 1)%nat as Hmedia
    by (intros; by vm_compute).
  destruct e as [post| | | | | | |query|loaded]; simpl; try done.
  - unfold ApiApp.handleCardClick. destruct (_ =? -1); [done|].
    destruct (isMediaPost (type post)) eqn:Hkind.
    + rewrite fullScreenCount_slots. simpl.
      destruct (activeMedia s) as [prev|]; [destruct (String.eqb _ _ && _)|]; simpl; lia.
    + match goal with |- context [ApiApp.minimizeIfModal (setActiveModal (Some ?d) s)] =>
        pose proof (fullScreenCount_api_shown (ActiveModalState.post d)
                      (ActiveModalState.index d) s) as Hshown end.
      unfold api_shown in Hshown. simpl in Hshown. by rewrite Hkind in Hshown.
  - unfold ApiApp.handleNext.
    destruct (api_navigation_total ApiApp.next s) as [->|(i & p & ->)];
      [done | apply fullScreenCount_api_shown].
  - unfold ApiApp.handlePrev.
    destruct (api_navigation_total ApiApp.prev s) as [->|(i & p & ->)];
      [done | apply fullScreenCount_api_shown].
  - rewrite fullScreenCount_slots in *. simpl.
    destruct (activeMedia s) as [m|]; [destruct (mode_eqb _ _)|]; lia.
  - rewrite fullScreenCount_slots in *. unfold ApiApp.onMinimize, switchMode. simpl.
    destruct (activeMedia s) as [m|]; simpl; [destruct (mode_eqb _ _)|]; lia.
  - rewrite fullScreenCount_slots in *. simpl.
    destruct (activeModal s); lia.
Qed.

(** With the song minimized under the grocery note, a click on the card
    of the video leaves the video alone on the screen. *)
Lemma api_keeps_one_item_full_screen_witness :
  let s := ApiApp.step (CardClick Sample.memo)
             (ApiApp.step MinimizeMedia (ApiApp.step (CardClick Sample.song) Sample.loaded)) in
  (fullScreenCount s = 1 ∧ fullScreenCount (ApiApp.step (CardClick Sample.clip) s) ≤ 1)%nat.
Proof.
  intros s. split; [reflexivity|].
  apply api_keeps_one_item_full_screen; [by vm_compute | discriminate].
Defined.

(** Restoring the player under an open modal is the event that does
    leave two. *)
Example api_restore_under_a_modal :
  let s := ApiApp.step (CardClick Sample.memo)
             (ApiApp.step MinimizeMedia (ApiApp.step (CardClick Sample.song) Sample.loaded)) in
  fullScreenCount (ApiApp.step RestoreMedia s) = 2%nat.
Proof. reflexivity. Qed.

(** ** The position a card click records *)

Section FindIndexPosition.
Context {A : Type} (f : A → bool).

Lemma findIndex_from_at_most (l : list A) (n : nat) x i :
  l !! n = Some x → f x = true →
  i ≤ JS.findIndex_from f l i ≤ i + Z.of_nat n.
Proof.
  revert n i. induction l as [|y l IH]; intros n i Hx Hfx; [done|]. simpl.
  destruct (f y) eqn:Hfy; [lia|].
  destruct n as [|n]; [simpl in Hx; congruence|].
  specialize (IH n (i + 1) Hx Hfx). lia.
Qed.

Lemma findIndex_from_first (l : list A) (n : nat) x i :
  l !! n = Some x → f x = true →
  (∀ m y, (m < n)%nat → l !! m = Some y → f y = false) →
  JS.findIndex_from f l i = i + Z.of_nat n.
Proof.
  revert n i. induction l as [|y l IH]; intros n i Hx Hfx Hbefore; [done|]. simpl.
  destruct n as [|n].
  - simpl in Hx. injection Hx as ->. rewrite Hfx. lia.
  - rewrite (Hbefore 0%nat y); [|lia|done].
    rewrite (IH n (i + 1) Hx Hfx); [lia|].
    intros m z Hm Hz. apply (Hbefore (S m) z); [lia | done].
Qed.
End FindIndexPosition.

Lemma NoDup_ids_lookup (l : list Post) (m n : nat) y x :
  NoDup (_id <$> l) → l !! m = Some y → l !! n = Some x → _id y = _id x → m = n.
Proof.
  intros Hnodup Hy Hx Hid.
  eapply NoDup_lookup; [exact Hnodup| |].
  - rewrite list_lookup_fmap, Hy. done.
  - rewrite list_lookup_fmap, Hx. simpl. by rewrite Hid.
Qed.

(** X10. A click on the card of the post that the filtered list holds at
    position [k] records the first position where the list holds a post
    with that identifier: a position between 0 and [k], equal to [k]
    when the identifiers of the list are distinct. A post of another kind
    than audio and video goes to the modal with that position, in both
    variants; an audio or video post goes to the player with it, unless
    the player held it minimized and keeps its record. *)
Theorem cardClick_records_first_position (s : AppState) (k : Z) (post : Post) :
  JS.at_index (filtered s) k = Some post →
  let i := JS.findIndex (λ p, String.eqb (_id p) (_id post)) (filtered s) in
  0 ≤ i ≤ k
  ∧ pointsAt (filtered s) post i
  ∧ (NoDup (_id <$> filtered s) → i = k)
  ∧ (if isMediaPost (type post)
     then ∃ m, activeMedia (MockApp.handleCardClick post s) = Some m
               ∧ activeMedia (ApiApp.handleCardClick post s) = Some m
               ∧ (m = {| ActiveMediaState.post := post; ActiveMediaState.index := i;
                         ActiveMediaState.mode := modal;
                         ActiveMediaState.currentTime := Some (or_zero (initialTime post)) |}
                  ∨ ∃ prev, activeMedia s = Some prev
                            ∧ ActiveMediaState.mode prev = minimized
                            ∧ _id (ActiveMediaState.post prev) = _id post
                            ∧ m = ActiveMediaState.with_mode prev modal)
     else activeModal (MockApp.handleCardClick post s)
          = Some {| ActiveModalState.post := post; ActiveModalState.index := i |}
          ∧ activeModal (ApiApp.handleCardClick post s)
            = Some {| ActiveModalState.post := post; ActiveModalState.index := i |}).
Proof.
  intros Hk i.
  assert (0 ≤ k ∧ filtered s !! Z.to_nat k = Some post) as [Hk0 Hlookup].
  { unfold JS.at_index in Hk. destruct (Z.ltb_spec k 0); [done|]. by split. }
  pose proof (findIndex_from_at_most (λ p, String.eqb (_id p) (_id post)) (filtered s)
                (Z.to_nat k) post 0 Hlookup (String.eqb_refl _)) as Hrange.
  fold (JS.findIndex (λ p, String.eqb (_id p) (_id post)) (filtered s)) in Hrange.
  fold i in Hrange.
  assert (i ≠ -1) as Hfound by lia.
  destruct (findIndex_found _ _ Hfound) as (p & Hp & Hid%String.eqb_eq & _). fold i in Hp.
  split; [lia|]. split; [by exists p|]. split.
  - intros Hnodup. unfold i, JS.findIndex.
    rewrite (findIndex_from_first _ (filtered s) (Z.to_nat k) post 0 Hlookup
               (String.eqb_refl _)); [lia|].
    intros m y Hm Hy. apply String.eqb_neq. intros Hsame.
    pose proof (NoDup_ids_lookup _ _ _ _ _ Hnodup Hy Hlookup Hsame). lia.
  - apply Z.eqb_neq in Hfound.
    unfold MockApp.handleCardClick, ApiApp.handleCardClick. fold i. rewrite Hfound.
    destruct (isMediaPost (type post)); [|by rewrite minimizeIfModal_activeModal].
    destruct (activeMedia s) as [prev|] eqn:Hprev; simpl.
    + destruct (String.eqb _ _ && _) eqn:Hsame; simpl.
      * apply andb_true_iff in Hsame as [Hsame%String.eqb_eq Hmode].
        eexists. split; [done|]. split; [done|]. right. exists prev.
        by destruct (ActiveMediaState.mode prev).
      * eexists. split; [done|]. split; [done|]. by left.
    + eexists. split; [done|]. split; [done|]. by left.
Qed.

Lemma cardClick_records_first_position_witness :
  activeModal (MockApp.handleCardClick Sample.memo Sample.loaded)
  = Some {| ActiveModalState.post := Sample.memo; ActiveModalState.index := 2 |}.
Proof.
  destruct (cardClick_records_first_position Sample.loaded 2 Sample.memo)
    as (_ & _ & _ & Hmodal); [reflexivity|].
  destruct Hmodal as [Hmock _]. exact Hmock.
Defined.

(** Two posts with one identifier: a click on the card of the second
    records the position of the first. *)
Example cardClick_on_a_duplicate_identifier :
  let twin := Sample.mkPost "n1" "Second note" Note None None in
  let s := setPosts [Sample.clip; Sample.memo; twin] Sample.loaded in
  activeModal (MockApp.handleCardClick twin s)
  = Some {| ActiveModalState.post := twin; ActiveModalState.index := 1 |}.
Proof. reflexivity. Qed.

(** ** The search text *)

Lemma filter_sublist_weaker {A} (f g : A → bool) (l : list A) :
  (∀ x, f x = true → g x = true) → List.filter f l `sublist_of` List.filter g l.
Proof.
  intros Himp. induction l as [|x l IH]; simpl; [done|].
  destruct (f x) eqn:Hf.
  - rewrite (Himp x Hf). by constructor.
  - destruct (g x); [by constructor | done].
Qed.

Lemma string_app_assoc (a b c : string) :
  ((a ++ b) ++ c = a ++ b ++ c)%string.
Proof. induction a as [|x a IH]; simpl; [done | by rewrite IH]. Qed.

Lemma includes_part s before q after :
  JS.includes s (before ++ q ++ after)%string = true → JS.includes s q = true.
Proof.
  rewrite !includes_spec. intros (b & a & ->).
  exists (b ++ before)%string, (after ++ a)%string.
  by rewrite !string_app_assoc.
Qed.

Lemma fieldIncludes_part lower field before q after :
  Host.fieldIncludes lower field (before ++ q ++ after)%string = true →
  Host.fieldIncludes lower field q = true.
Proof.
  destruct field as [text|]; simpl; [|done].
  rewrite !andb_true_iff. intros [? ?]. split; [done|]. by eapply includes_part.
Qed.

Lemma postMatches_part lower post before q after :
  Host.postMatches lower (before ++ q ++ after)%string post = true →
  Host.postMatches lower q post = true.
Proof.
  unfold Host.postMatches. rewrite !orb_true_iff.
  intros [[[H|H]|H]|H];
    [left; left; left; by eapply includes_part | left; left; right | left; right | right];
    by eapply fieldIncludes_part.
Qed.

(** X11. A longer search text of ASCII characters never brings posts
    back: the posts found for a text that contains [query] are, in
    order, among the posts found for [query], whatever text the posts
    hold. The lower-casing of the host is any function that is the
    ASCII one on text of ASCII characters. *)
Theorem longer_query_narrows (toLowerCase : string → string) (catalog : list Post)
    (before query after : string) :
  (∀ s, FilterSpec.isAscii s = true → toLowerCase s = JS.toLowerCase s) →
  FilterSpec.isAscii before = true →
  FilterSpec.isAscii query = true →
  FilterSpec.isAscii after = true →
  Host.filteredPosts toLowerCase catalog (before ++ query ++ after)%string
  `sublist_of` Host.filteredPosts toLowerCase catalog query.
Proof.
  intros Hascii Hb Hq Ha. unfold Host.filteredPosts.
  destruct (JS.truthy (before ++ query ++ after)%string) eqn:Hlong; simpl.
  - destruct (JS.truthy query) eqn:Htruthy; simpl; [|apply filter_sublist].
    apply filter_sublist_weaker. intros post.
    rewrite (Hascii query Hq), Hascii by (by rewrite !isAscii_app, Hb, Hq, Ha).
    rewrite !toLowerCase_app. apply postMatches_part.
  - destruct before; [|done]. destruct query; [done | done].
Qed.

(** With the ASCII lower-casing, on the sample catalog: what "oat milk"
    finds is among what "milk" finds. *)
Lemma longer_query_narrows_witness :
  filteredPosts Sample.catalog "oat milk" `sublist_of` filteredPosts Sample.catalog "milk".
Proof.
  apply (longer_query_narrows JS.toLowerCase Sample.catalog "oat " "milk" "");
    [done | reflexivity..].
Defined.

(** X12. The letter case of the search text does not matter: two texts
    that read the same, case apart, find the same posts. *)
Theorem query_case_is_ignored (catalog : list Post) (query query' : string) :
  FilterSpec.equalIgnoringCase query query' →
  filteredPosts catalog query = filteredPosts catalog query'.
Proof.
  intros Hsame. unfold filteredPosts, Host.filteredPosts.
  assert (JS.truthy query = JS.truthy query') as -> by (by destruct query, query').
  apply toLowerCase_equalIgnoringCase in Hsame. by rewrite Hsame.
Qed.

Lemma query_case_is_ignored_witness :
  filteredPosts Sample.catalog "Milk" = filteredPosts Sample.catalog "mILK".
Proof.
  apply query_case_is_ignored. apply toLowerCase_equalIgnoringCase. reflexivity.
Defined.

(** ** The player and its element *)

Ltac player_unfold :=
  unfold MinimizedPlayer.togglePlay, MinimizedPlayer.playRejected,
    MinimizedPlayer.mount, MinimizedPlayer.handleTimeUpdate,
    MinimizedPlayer.handleLoadedMetadata, MinimizedPlayer.setupEffect,
    MinimizedPlayer.modeEffect, MinimizedPlayer.playbackEffect,
    MinimizedPlayer.play, MinimizedPlayer.pause, MinimizedPlayer.setIsPlaying,
    MinimizedPlayer.setMedia in *.

(** X13. When the host refuses to start playback on the first render of
    the player, the cell [isPlaying] first says playing over a paused
    element; the rejection then sets it to paused, the element stays
    paused at an elapsed time of 0; and a later [togglePlay], once the
    host allows playback, starts the element. *)
Theorem blocked_autoplay_falls_back_to_paused (data : ActiveMediaState.t) :
  MinimizedPlayer.isMedia data = true →
  let st0 := MinimizedPlayer.mount false data in
  let st1 := MinimizedPlayer.playRejected false data st0 in
  let st2 := MinimizedPlayer.togglePlay true data st1 in
  (MinimizedPlayer.isPlaying st0 = true
   ∧ MinimizedPlayer.paused (MinimizedPlayer.media st0) = true)
  ∧ (MinimizedPlayer.isPlaying st1 = false
     ∧ MinimizedPlayer.paused (MinimizedPlayer.media st1) = true
     ∧ MinimizedPlayer.currentTime st1 = 0)
  ∧ (MinimizedPlayer.isPlaying st2 = true
     ∧ MinimizedPlayer.paused (MinimizedPlayer.media st2) = false).
Proof.
  intros Hmedia. cbv zeta.
  assert (MinimizedPlayer.mount false data
          = {| MinimizedPlayer.isPlaying := true; MinimizedPlayer.duration := Some 0;
               MinimizedPlayer.currentTime := 0;
               MinimizedPlayer.media :=
                 {| MinimizedPlayer.paused := true; MinimizedPlayer.mediaTime := 0;
                    MinimizedPlayer.mediaDuration := None |};
               MinimizedPlayer.resumeAt := ActiveMediaState.currentTime data |}) as ->.
  { unfold MinimizedPlayer.mount, MinimizedPlayer.setupEffect,
      MinimizedPlayer.modeEffect, MinimizedPlayer.playbackEffect, MinimizedPlayer.play.
    rewrite Hmedia. simpl.
    by destruct (mode_eqb (ActiveMediaState.mode data) modal). }
  destruct (mode_eqb (ActiveMediaState.mode data) modal) eqn:Hmode;
    cbv [MinimizedPlayer.playRejected MinimizedPlayer.togglePlay
         MinimizedPlayer.modeEffect MinimizedPlayer.playbackEffect
         MinimizedPlayer.play MinimizedPlayer.pause MinimizedPlayer.setIsPlaying
         MinimizedPlayer.setMedia MinimizedPlayer.isPlaying MinimizedPlayer.media
         MinimizedPlayer.paused MinimizedPlayer.currentTime negb andb];
    rewrite ?Hmedia, ?Hmode; cbv [negb andb MinimizedPlayer.isPlaying MinimizedPlayer.media
         MinimizedPlayer.paused MinimizedPlayer.currentTime]; done.
Qed.

Lemma blocked_autoplay_falls_back_to_paused_witness :
  let data :=
    {| ActiveMediaState.post := Sample.song; ActiveMediaState.index := 1;
       ActiveMediaState.mode := modal; ActiveMediaState.currentTime := Some 12 |} in
  MinimizedPlayer.isPlaying
    (MinimizedPlayer.playRejected false data (MinimizedPlayer.mount false data))
  = false.
Proof.
  intros data.
  destruct (blocked_autoplay_falls_back_to_paused data) as (_ & (Hpaused & _) & _);
    [reflexivity|].
  exact Hpaused.
Defined.

(** X14. [togglePlay] flips [isPlaying] and leaves the elapsed time, the
    duration and the position of the element alone. Going to paused it
    pauses the element; going to playing it starts the element when the
    host allows it. Two calls bring [isPlaying] back. *)
Theorem togglePlay_flips (allowed : bool) (data : ActiveMediaState.t)
    (st : MinimizedPlayer.State) :
  MinimizedPlayer.isMedia data = true →
  let st' := MinimizedPlayer.togglePlay allowed data st in
  MinimizedPlayer.isPlaying st' = negb (MinimizedPlayer.isPlaying st)
  ∧ MinimizedPlayer.currentTime st' = MinimizedPlayer.currentTime st
  ∧ MinimizedPlayer.duration st' = MinimizedPlayer.duration st
  ∧ MinimizedPlayer.mediaTime (MinimizedPlayer.media st')
    = MinimizedPlayer.mediaTime (MinimizedPlayer.media st)
  ∧ (MinimizedPlayer.isPlaying st = true →
     MinimizedPlayer.paused (MinimizedPlayer.media st') = true)
  ∧ (MinimizedPlayer.isPlaying st = false → allowed = true →
     MinimizedPlayer.paused (MinimizedPlayer.media st') = false)
  ∧ MinimizedPlayer.isPlaying (MinimizedPlayer.togglePlay allowed data st')
    = MinimizedPlayer.isPlaying st.
Proof.
  intros Hmedia. cbv zeta. player_unfold. rewrite Hmedia. simpl.
  destruct st as [playing dur time [wasPaused mtime mdur] resume]. simpl.
  destruct playing, allowed, wasPaused, (mode_eqb (ActiveMediaState.mode data) modal);
    simpl; rewrite ?Hmedia; simpl; repeat split; try done; intros; congruence.
Qed.

Lemma togglePlay_flips_witness :
  let data :=
    {| ActiveMediaState.post := Sample.song; ActiveMediaState.index := 1;
       ActiveMediaState.mode := minimized; ActiveMediaState.currentTime := Some 12 |} in
  let st := MinimizedPlayer.mount true data in
  MinimizedPlayer.paused (MinimizedPlayer.media (MinimizedPlayer.togglePlay true data st))
  = true.
Proof.
  intros data st.
  destruct (togglePlay_flips true data st) as (_ & _ & _ & _ & Hpause & _);
    [reflexivity|].
  apply Hpause. reflexivity.
Defined.

(** X15. The elapsed time shown starts at 0 and does not follow the
    clock of the element before its duration is known: on a newly
    mounted player a time update is ignored; once the metadata gave a
    finite duration, a time update sets the elapsed time; and when the
    duration is not finite (a stream without end) time updates stay
    ignored. *)
Theorem elapsed_waits_for_a_finite_duration (allowed : bool)
    (data : ActiveMediaState.t) (t d : Z) :
  MinimizedPlayer.isMedia data = true →
  let st0 := MinimizedPlayer.mount allowed data in
  MinimizedPlayer.currentTime st0 = 0
  ∧ MinimizedPlayer.currentTime (MinimizedPlayer.handleTimeUpdate t st0) = 0
  ∧ MinimizedPlayer.currentTime
      (MinimizedPlayer.handleTimeUpdate t
         (MinimizedPlayer.handleLoadedMetadata (Some d) st0)) = t
  ∧ MinimizedPlayer.duration (MinimizedPlayer.handleLoadedMetadata (Some d) st0) = Some d
  ∧ MinimizedPlayer.currentTime
      (MinimizedPlayer.handleTimeUpdate t
         (MinimizedPlayer.handleLoadedMetadata None st0)) = 0.
Proof.
  intros Hmedia. cbv zeta. player_unfold. rewrite Hmedia. simpl.
  by destruct allowed; simpl;
    destruct (mode_eqb (ActiveMediaState.mode data) modal); simpl; rewrite ?Hmedia.
Qed.

Lemma elapsed_waits_for_a_finite_duration_witness :
  let data :=
    {| ActiveMediaState.post := Sample.clip; ActiveMediaState.index := 0;
       ActiveMediaState.mode := modal; ActiveMediaState.currentTime := Some 0 |} in
  MinimizedPlayer.currentTime
    (MinimizedPlayer.handleTimeUpdate 7 (MinimizedPlayer.mount true data)) = 0.
Proof.
  intros data.
  destruct (elapsed_waits_for_a_finite_duration true data 7 90) as (_ & Hignored & _);
    [reflexivity|].
  exact Hignored.
Defined.

(** ** Where playback starts *)

(** X16. A card click on an audio or video post of the filtered list,
    made while no media is active, mounts the player; when the metadata
    of the element is then loaded the element is sought to the
    [initialTime] of the post, and stays at 0 when the post has none or
    has 0. *)
Theorem first_open_resumes_at_initialTime (allowed : bool) (post : Post)
    (sys : System) (d : option Z) :
  mounted sys →
  activeMedia (app sys) = None →
  (∃ p, p ∈ filtered (app sys) ∧ _id p = _id post) →
  isMediaPost (type post) = true →
  let sys' := dispatch allowed (MockApp.handleCardClick post) sys in
  ∃ st', player sys' = Some st'
         ∧ MinimizedPlayer.mediaTime
             (MinimizedPlayer.media (MinimizedPlayer.handleLoadedMetadata d st'))
           = default 0 (initialTime post).
Proof.
  intros Hmounted Hnone Hin%cardClick_present%Z.eqb_neq Hkind. cbv zeta.
  destruct sys as [s pl]. unfold mounted in Hmounted. simpl in *.
  unfold dispatch, MockApp.handleCardClick. simpl. rewrite Hin, Hkind, Hnone. simpl.
  eexists. split; [reflexivity|].
  exact (first_open_seeks_to_initialTime allowed post _ d Hkind).
Qed.

Lemma first_open_resumes_at_initialTime_witness :
  let sys := {| app := Sample.loaded; player := None |} in
  ∃ st', player (dispatch true (MockApp.handleCardClick Sample.song) sys) = Some st'
         ∧ MinimizedPlayer.mediaTime
             (MinimizedPlayer.media (MinimizedPlayer.handleLoadedMetadata (Some 180) st'))
           = 12.
Proof.
  intros sys.
  apply (first_open_resumes_at_initialTime true Sample.song sys (Some 180));
    [exact I | reflexivity | | reflexivity].
  exists Sample.song. split; [|reflexivity].
  vm_compute. apply list_elem_of_In. simpl. tauto.
Defined.

(** X17. A navigation step never resumes: when it lands on an audio or
    video post other than the active one, whatever the [initialTime] of
    that post, the listeners of the player hold a start time of 0 and
    the loading of the metadata leaves the position of the element where
    the host put it. *)
Theorem navigation_ignores_initialTime
    (current : AppState → option Z) (handler : AppState → outcome) (step : Z)
    (allowed : bool) (sys : System) (m : ActiveMediaState.t)
    (st : MinimizedPlayer.State) (i : Z) (p : Post) (d : option Z) :
  navigation current handler step →
  activeMedia (app sys) = Some m →
  player sys = Some st →
  current (app sys) = Some i →
  JS.at_index (filtered (app sys)) (i + step) = Some p →
  isMediaPost (type p) = true →
  _id p ≠ _id (ActiveMediaState.post m) →
  let sys' := dispatch allowed (λ s, settle s (handler s)) sys in
  ∃ st', player sys' = Some st'
         ∧ MinimizedPlayer.resumeAt st' = Some 0
         ∧ MinimizedPlayer.mediaTime
             (MinimizedPlayer.media (MinimizedPlayer.handleLoadedMetadata d st'))
           = MinimizedPlayer.mediaTime (MinimizedPlayer.media st').
Proof.
  intros Hnav Hm Hst Hi Hp Hkind Hnew. cbv zeta.
  pose proof (navigation_to_media _ _ _ _ _ _ Hnav Hi Hp Hkind) as Hret.
  unfold dispatch. rewrite Hret, Hm, Hst. simpl. eexists. split; [reflexivity|].
  match goal with
  | |- context [MinimizedPlayer.update allowed m ?data st] =>
      destruct (PlayerFacts.update_new_item allowed m data st) as (_ & _ & Hresume)
  end.
  - simpl. intros Hsame. apply Hnew. symmetry. exact Hsame.
  - rewrite PlayerFacts.isMedia_isMediaPost. simpl. exact Hkind.
  - simpl in Hresume. split; [exact Hresume|].
    unfold MinimizedPlayer.handleLoadedMetadata. rewrite Hresume. done.
Qed.

(** From the video to the song, whose [initialTime] is 12: the start
    time held is 0. *)
Lemma navigation_ignores_initialTime_witness :
  let s := MockApp.handleCardClick Sample.clip Sample.loaded in
  let st := MinimizedPlayer.mount true
              {| ActiveMediaState.post := Sample.clip; ActiveMediaState.index := 0;
                 ActiveMediaState.mode := modal;
                 ActiveMediaState.currentTime := Some 0 |} in
  let sys' :=
    dispatch true (λ s, settle s (MockApp.handleNext s)) {| app := s; player := Some st |} in
  ∃ st', player sys' = Some st' ∧ MinimizedPlayer.resumeAt st' = Some 0.
Proof.
  intros s st sys'.
  destruct (navigation_ignores_initialTime MockApp.currentIndex MockApp.handleNext 1 true
              {| app := s; player := Some st |}
              {| ActiveMediaState.post := Sample.clip; ActiveMediaState.index := 0;
                 ActiveMediaState.mode := modal;
                 ActiveMediaState.currentTime := Some 0 |} st 0 Sample.song (Some 180))
    as (st' & Hst' & Hresume & _);
    [constructor | reflexivity | reflexivity | reflexivity | reflexivity | reflexivity
    | discriminate |].
  by exists st'.
Defined.

(** X18. Closing the player discards its transport state: after
    [handleCloseMedia], a card click on an audio or video post of the
    filtered list, be it the one that was just closed, starts it anew,
    full screen, playing, at an elapsed time of 0, to be sought to its
    [initialTime]. *)
Theorem close_then_open_starts_anew (allowed : bool) (post : Post) (sys : System) :
  (∃ p, p ∈ filtered (app sys) ∧ _id p = _id post) →
  isMediaPost (type post) = true →
  let closed := dispatch allowed MockApp.handleCloseMedia sys in
  let sys' := dispatch allowed (MockApp.handleCardClick post) closed in
  player closed = None
  ∧ activeItems (app sys') = [(post, FullScreen)]
  ∧ transport sys'
    = Some {| startAt := Some (default 0 (initialTime post));
              playing := true; elapsed := 0 |}.
Proof.
  intros Hin%cardClick_present%Z.eqb_neq Hkind. cbv zeta.
  destruct sys as [s pl]. simpl in Hin.
  unfold dispatch, MockApp.handleCloseMedia, transport. simpl.
  split; [done|]. unfold MockApp.handleCardClick. simpl.
  change (filtered (setActiveMedia None s)) with (filtered s).
  rewrite Hin, Hkind. simpl. split; [done|]. rewrite or_zero_default.
  match goal with
  | |- context [MinimizedPlayer.mount allowed ?data] =>
      destruct (PlayerFacts.mount_cells allowed data) as (-> & -> & _); [|done]
  end.
  by rewrite PlayerFacts.isMedia_isMediaPost.
Qed.

Lemma close_then_open_starts_anew_witness :
  let s := MockApp.handleCardClick Sample.song Sample.loaded in
  let st :=
    {| MinimizedPlayer.isPlaying := false; MinimizedPlayer.duration := Some 180;
       MinimizedPlayer.currentTime := 40;
       MinimizedPlayer.media :=
         {| MinimizedPlayer.paused := true; MinimizedPlayer.mediaTime := 40;
            MinimizedPlayer.mediaDuration := Some 180 |};
       MinimizedPlayer.resumeAt := Some 12 |} in
  let sys := {| app := s; player := Some st |} in
  transport (dispatch true (MockApp.handleCardClick Sample.song)
               (dispatch true MockApp.handleCloseMedia sys))
  = Some {| startAt := Some 12; playing := true; elapsed := 0 |}.
Proof.
  intros s st sys.
  destruct (close_then_open_starts_anew true Sample.song sys) as (_ & _ & Htransport);
    [|reflexivity|exact Htransport].
  exists Sample.song. split; [|reflexivity].
  vm_compute. apply list_elem_of_In. simpl. tauto.
Defined.

(** ** [formatTime] *)

Lemma toString_inj a b : PlayerView.toString a = PlayerView.toString b → a = b.
Proof.
  unfold PlayerView.toString. intros Heq.
  assert (∀ z, DecimalString.NilZero.int_of_string
                 (DecimalString.NilZero.string_of_int (Z.to_int z))
               = Some (Z.to_int z)) as Hread.
  { intros z. apply DecimalString.NilZero.isi; destruct z as [|q|q]; simpl; try done;
      intros [= Hnil]; by apply DecimalPos.Unsigned.to_uint_nonnil in Hnil. }
  apply DecimalZ.to_int_inj.
  pose proof (Hread a) as Ha. rewrite Heq, Hread in Ha. by injection Ha.
Qed.

Lemma below_60 (check : Z → bool) :
  forallb (λ n, check (Z.of_nat n)) (seq 0 60) = true →
  ∀ y, 0 ≤ y < 60 → check y = true.
Proof.
  intros Hall y Hy. rewrite forallb_forall in Hall.
  specialize (Hall (Z.to_nat y)). rewrite Z2Nat.id in Hall by lia.
  apply Hall, in_seq. lia.
Qed.

Lemma secondsPart_length sec : 0 ≤ sec < 60 → String.length (secondsPart sec) = 2%nat.
Proof.
  intros Hsec. apply Nat.eqb_eq.
  by apply (below_60 (λ y, Nat.eqb (String.length (secondsPart y)) 2)).
Qed.

Lemma secondsPart_inj a b :
  0 ≤ a < 60 → 0 ≤ b < 60 → secondsPart a = secondsPart b → a = b.
Proof.
  intros Ha Hb Heq.
  pose proof (below_60
    (λ x, forallb (λ n, implb (String.eqb (secondsPart x) (secondsPart (Z.of_nat n)))
                             (x =? Z.of_nat n)) (seq 0 60))
    ltac:(by vm_compute) a Ha) as Hrow.
  simpl in Hrow.
  pose proof (below_60
    (λ y, implb (String.eqb (secondsPart a) (secondsPart y)) (a =? y)) Hrow b Hb) as Hcell.
  simpl in Hcell. rewrite Heq, String.eqb_refl in Hcell. by apply Z.eqb_eq.
Qed.

Lemma string_app_inv (a b c d : string) :
  String.length a = String.length c →
  (a ++ b = c ++ d)%string → a = c ∧ b = d.
Proof.
  revert c. induction a as [|x a IH]; intros [|y c] Hlen Heq; simpl in *; try done.
  injection Heq as -> Heq. injection Hlen as Hlen.
  destruct (IH c Hlen Heq) as [-> ->]. done.
Qed.

Lemma string_app_length (a b : string) :
  String.length (a ++ b) = (String.length a + String.length b)%nat.
Proof. induction a as [|x a IH]; simpl; [done | by rewrite IH]. Qed.

Lemma formatTime_whole s :
  0 ≤ s →
  PlayerView.formatTime (Some s)
  = (PlayerView.toString (s / 60) ++ ":" ++ secondsPart (s mod 60))%string.
Proof.
  intros Hs. unfold PlayerView.formatTime, secondsPart.
  by rewrite Z.rem_mod_nonneg by lia.
Qed.

(** X19. For whole seconds from 0 to below 2^53, the whole numbers a
    [number] counts without gaps and writes in digits, [formatTime]
    writes the minutes, a colon, and the seconds below 60 in exactly two
    characters, and two different amounts of seconds never read the
    same. A value that is not finite reads [0:00], like 0. *)
Theorem formatTime_minutes_and_two_digits (a b : Z) :
  0 ≤ a < 2 ^ 53 → 0 ≤ b < 2 ^ 53 →
  PlayerView.formatTime (Some a)
  = (PlayerView.toString (a / 60) ++ ":" ++ secondsPart (a mod 60))%string
  ∧ String.length (secondsPart (a mod 60)) = 2%nat
  ∧ (PlayerView.formatTime (Some a) = PlayerView.formatTime (Some b) → a = b)
  ∧ PlayerView.formatTime None = PlayerView.formatTime (Some 0).
Proof.
  intros [Ha _] [Hb _].
  pose proof (Z.mod_pos_bound a 60 ltac:(lia)) as Hma.
  pose proof (Z.mod_pos_bound b 60 ltac:(lia)) as Hmb.
  split; [by apply formatTime_whole|]. split; [by apply secondsPart_length|].
  split; [|done].
  rewrite !formatTime_whole by done. intros Heq.
  assert (String.length (PlayerView.toString (a / 60))
          = String.length (PlayerView.toString (b / 60))) as Hlen.
  { apply (f_equal String.length) in Heq. rewrite !string_app_length in Heq.
    rewrite !secondsPart_length in Heq by done. simpl in Heq. lia. }
  apply string_app_inv in Heq as [Hmin%toString_inj Hsec]; [|done].
  injection Hsec as Hsec%secondsPart_inj; [|done..].
  rewrite (Z.div_mod a 60), (Z.div_mod b 60) by lia. by rewrite Hmin, Hsec.
Qed.

Lemma formatTime_minutes_and_two_digits_witness :
  PlayerView.formatTime (Some 75) = "1:15"%string
  ∧ PlayerView.formatTime (Some 3605) = "60:05"%string.
Proof.
  destruct (formatTime_minutes_and_two_digits 75 3605) as (H75 & _); [lia..|].
  destruct (formatTime_minutes_and_two_digits 3605 75) as (H3605 & _); [lia..|].
  split; [rewrite H75 | rewrite H3605]; reflexivity.
Defined.

(** Below 0 the remainder keeps the sign and the padding still applies. *)
Example formatTime_negative : PlayerView.formatTime (Some (-1)) = "-1:0-1"%string.
Proof. reflexivity. Qed.

(** ** [handleSeek] *)

Module SeekFacts.
Import QArith Qminmax Lqa.

Lemma percentage_cases r :
  (r <= 0 ∧ Qmax 0 (Qmin 1 r) == 0)%Q
  ∨ (0 <= r <= 1 ∧ Qmax 0 (Qmin 1 r) == r)%Q
  ∨ (1 <= r ∧ Qmax 0 (Qmin 1 r) == 1)%Q.
Proof.
  destruct (Q.min_spec 1 r) as [[? Hm]|[? Hm]]; rewrite Hm;
    destruct (Q.max_spec 0 1) as [[? Hx]|[? Hx]];
    destruct (Q.max_spec 0 r) as [[? Hy]|[? Hy]]; rewrite ?Hx, ?Hy;
    try (left; split; [lra | reflexivity]);
    try (right; left; split; [lra | reflexivity]);
    try (right; right; split; [lra | reflexivity]); try lra.
Qed.

Lemma ratio_le x x' l w : (0 < w)%Q → (x <= x')%Q → ((x - l) / w <= (x' - l) / w)%Q.
Proof.
  intros Hw Hx. unfold Qdiv. apply Qmult_le_compat_r; [lra|].
  apply Qlt_le_weak, Qinv_lt_0_compat, Hw.
Qed.

(** X20. On a progress bar of positive width and with a finite duration
    that is not negative, a click sets the position of the element to a
    time between 0 and the duration: 0 for a click at or left of the
    bar, the duration for a click at or right of its end, and never
    less for a click further right. *)
Theorem seek_stays_within_the_duration (rect : Seek.Rect) (d x x' : Q) :
  (0 < Seek.width rect)%Q → (0 <= d)%Q → (x <= x')%Q →
  ∃ t t', Seek.handleSeek (Some rect) (Some d) x = Some t
          ∧ Seek.handleSeek (Some rect) (Some d) x' = Some t'
          ∧ (0 <= t <= d)%Q
          ∧ (t <= t')%Q
          ∧ ((x <= Seek.left rect)%Q → (t == 0)%Q)
          ∧ ((Seek.left rect + Seek.width rect <= x)%Q → (t == d)%Q).
Proof.
  intros Hw Hd Hx. simpl. eexists _, _. split; [reflexivity|]. split; [reflexivity|].
  pose proof (ratio_le x x' (Seek.left rect) (Seek.width rect) Hw Hx) as Hr.
  assert ((x <= Seek.left rect)%Q →
          ((x - Seek.left rect) / Seek.width rect <= 0)%Q) as Hlow.
  { intros Hy. apply Qle_shift_div_r; [done|]. lra. }
  assert ((Seek.left rect + Seek.width rect <= x)%Q →
          (1 <= (x - Seek.left rect) / Seek.width rect)%Q) as Hhigh.
  { intros Hy. apply Qle_shift_div_l; [done|]. lra. }
  set (r := ((x - Seek.left rect) / Seek.width rect)%Q) in *.
  set (r' := ((x' - Seek.left rect) / Seek.width rect)%Q) in *.
  destruct (percentage_cases r) as [[? Hp]|[[? Hp]|[? Hp]]];
    destruct (percentage_cases r') as [[? Hp']|[[? Hp']|[? Hp']]];
    rewrite Hp, Hp'; repeat split; try nra; try lra; intros; try nra.
Qed.

(** A bar from pixel 10 to pixel 210 and a song of 180 seconds: a click
    at pixel 300 seeks to the end. *)
Lemma seek_stays_within_the_duration_witness :
  ∃ t, Seek.handleSeek (Some {| Seek.left := 10; Seek.width := 200 |}) (Some 180) 300
       = Some t
       ∧ (t == 180)%Q.
Proof.
  destruct (seek_stays_within_the_duration
              {| Seek.left := 10; Seek.width := 200 |} 180 300 300)
    as (t & t' & Ht & _ & _ & _ & _ & Hend); [simpl; lra..|].
  exists t. split; [exact Ht|]. apply Hend. simpl. lra.
Defined.

End SeekFacts.
